(** * coc-explorer: the action-expression engine of [ActionSource]

    A shallow embedding of [src/actions/actionSource.ts]: the two-tier action
    registry ([registeredActions], [registeredAction]), the invoker
    ([doAction]) and the recursive interpreter of action expressions
    ([doActionExp]).

    JavaScript values are modelled as follows.
    - A tree node is an opaque value compared by identity: a type with
      decidable equality.
    - [source.selectedNodes] is a JS [Set]; it iterates in insertion order, so
      it is a list here, and [clear()] makes it [[]].
    - The registries [this.actions] and [this.global.actions] and the table
      [conditionActionRules] are plain objects used as maps from names: a
      [gmap] holds their own entries, and a read [obj[name]] also finds the
      members every plain object inherits from [Object.prototype] ([js_get]).
    - An [async] function is a state-passing computation that either completes
      or throws; one logical thread of control is modelled, so [await] is
      sequencing.
    - The view, the loader and the mutex are collaborators outside the file.
      Each call to one of them is recorded in a trace of events and acts on
      the part of the state that is not the selection through an arbitrary
      function; they are taken to complete without throwing. *)

From Stdlib Require Import Ascii.
From stdpp Require Import gmap strings list fin_maps.

#[local] Set Warnings "-register-all".

(** ** Completions and the state-and-exception monad *)

Inductive JsError :=
  | TypeError (msg : string)
  | Thrown (payload : string).

Inductive Result (A : Type) :=
  | Ok (a : A)
  | Throw (e : JsError).
Arguments Ok {A} a.
Arguments Throw {A} e.

Definition M (S A : Type) : Type := S → Result A * S.

Definition ret {S A} (a : A) : M S A := λ s, (Ok a, s).

Definition throw {S A} (e : JsError) : M S A := λ s, (Throw e, s).

Definition bind {S A B} (m : M S A) (k : A → M S B) : M S B :=
  λ s, match m s with
       | (Ok a, s') => k a s'
       | (Throw e, s') => (Throw e, s')
       end.

(** [try { body } catch (error) { handler }] *)
Definition try_catch {S A} (body : M S A) (handler : JsError → M S A) : M S A :=
  λ s, match body s with
       | (Ok a, s') => (Ok a, s')
       | (Throw e, s') => handler e s'
       end.

(** [try { body } finally { fin }]: [fin] always runs; the completion of
    [body] is kept unless [fin] itself throws. *)
Definition try_finally {S A} (body : M S A) (fin : M S unit) : M S A :=
  λ s, match body s with
       | (r, s1) =>
           match fin s1 with
           | (Ok _, s2) => (r, s2)
           | (Throw e, s2) => (Throw e, s2)
           end
       end.

Definition modify {S} (f : S → S) : M S unit := λ s, (Ok tt, f s).

Definition gets {S A} (f : S → A) : M S A := λ s, (Ok (f s), s).

Declare Scope js_scope.
Delimit Scope js_scope with js.
Notation "'let*' x ':=' m 'in' k" := (bind m (λ x, k))
  (at level 10, x name, m at level 100, k at level 200) : js_scope.
Notation "m ;; k" := (bind m (λ _, k))
  (at level 100, right associativity) : js_scope.
Open Scope js_scope.

(** ** Helpers imported from [../util] *)

Section util.
Context {A : Type} `{EqDecision A}.

(** The elements of [l] not in [seen], each once, in order of first
    occurrence (what iterating over [new Set(l)] yields). *)
Fixpoint uniq_from (seen l : list A) : list A :=
  match l with
  | [] => []
  | x :: l' =>
      if decide (x ∈ seen) then uniq_from seen l'
      else x :: uniq_from (x :: seen) l'
  end.

(** Modelled from the spec: [uniq] of [../util] is not among the sources.
    The spec calls its result the union "by identity, duplicates removed":
    every element is kept once, at its first position. *)
Definition uniq (l : list A) : list A := uniq_from [] l.

(** Modelled from the spec: [partition] of [../util] is not among the
    sources.  It splits the items into those satisfying the predicate and
    those failing it, each group in the order of the input. *)
Definition partition (l : list A) (p : A → bool) : list A * list A :=
  (filter (λ x, p x = true) l, filter (λ x, p x = false) l).
End util.

(** ** Property reads on plain objects *)

(** What [obj[name]] yields when it is not [undefined]: an entry of the
    object itself, or a member inherited from [Object.prototype] (a function,
    or the prototype object for [__proto__]; each is truthy and has none of
    the properties the engine reads from an entry). *)
Inductive Member (V : Type) :=
  | Own (v : V)
  | Inherited (name : string).
Arguments Own {V} v.
Arguments Inherited {V} name.

(** The property names of [Object.prototype]. *)
Definition Object_prototype_names : list string :=
  ["constructor"; "__proto__"; "hasOwnProperty"; "isPrototypeOf";
   "propertyIsEnumerable"; "toLocaleString"; "toString"; "valueOf";
   "__defineGetter__"; "__defineSetter__"; "__lookupGetter__";
   "__lookupSetter__"].

(** [obj[name]] on a plain object whose own entries are [obj]; [None] is
    [undefined]. *)
Definition js_get {V} (obj : gmap string V) (name : string) : option (Member V) :=
  match obj !! name with
  | Some v => Some (Own v)
  | None =>
      if decide (name ∈ Object_prototype_names) then Some (Inherited name)
      else None
  end.

(** ** Data model *)

(** [MappingMode] is a string tag (['n'] is the default). *)
Definition MappingMode : Type := string.

(** [ActionExp = Action | ActionExp[]] with [Action = { name, args }]. *)
Inductive ActionExp :=
  | Leaf (name : string) (args : list string)
  | Seq (elements : list ActionExp).

(** [options.select] is [true], [false], ['visual'] or ['keep']. *)
Inductive SelectOption :=
  | SelectTrue
  | SelectFalse
  | SelectVisual
  | SelectKeep.

(** The optional fields of [action.options]; [None] is an absent field. *)
Record Options := {
  select : option SelectOption;
  render : option bool;
  reload : option bool;
}.

(** The options object of [doActionExp]. *)
Record ExpOptions := {
  mode : option MappingMode;
  isSubAction : option bool;
}.

Definition noExpOptions : ExpOptions := {| mode := None; isSubAction := None |}.

Section Engine.
Context {TreeNode : Type} `{EqDecision TreeNode}.
Context {World : Type}.

(** The explorer source as the engine sees it: the selection, and
    everything else the callbacks and collaborators may read and write. *)
Record Source := {
  selectedNodes : list TreeNode;
  world : World;
}.

(** The object handed to a callback, without its [source] field (the
    source is the state the callback runs on).  An element [None] of
    [cb_nodes] is JavaScript's [undefined]. *)
Record CallbackArg := {
  cb_nodes : list (option TreeNode);
  cb_args : list string;
  cb_mode : MappingMode;
}.

(** A registered action: a callback may change the source and may throw. *)
Record Action := {
  options : Options;
  callback : CallbackArg → Source → Result unit * Source;
  description : string;
}.

(** An entry of [conditionActionRules]. *)
Record Rule := {
  rule_filter : Source → TreeNode → list string → bool;
}.

(** What the engine itself does to its collaborators, in order. *)
Inductive Event :=
  | EvAcquire
  | EvRelease
  | EvRequestRenderNodes (nodes : list TreeNode)
  | EvCallback (name : string) (arg : CallbackArg)
  | EvLoad
  | EvRender.

(** The state of a run: the source, and what the engine has done so far. *)
Record Machine := {
  source : Source;
  trace : list Event;
}.

(** The local variables of one [doActionExp] call that outlive a throw. *)
Record Frame := {
  waitRelease : bool;
  machine : Machine;
}.

(** An [ActionSource] instance as the engine uses it: the two registries
    [this.actions] and [this.global.actions]; the collaborators
    [source.view], [source.load] and [global.waitActionMutex]; and the two
    imports of [./special], the table [conditionActionRules] and
    [waitAction.name]. *)
Record ActionSource := {
  actions : gmap string Action;
  global_actions : gmap string Action;
  view_requestRenderNodes : list TreeNode → World → World;
  view_render : World → World;
  source_load : World → World;
  mutex_acquire : World → World;
  mutex_release : World → World;
  conditionActionRules : gmap string Rule;
  waitAction_name : string;
}.

Variable this : ActionSource.

Definition on_world (f : World → World) (s : Source) : Source :=
  {| selectedNodes := selectedNodes s; world := f (world s) |}.

Definition emit (ev : Event) (f : World → World) : M Machine unit :=
  modify (λ m, {| source := on_world f (source m); trace := trace m ++ [ev] |}).

Definition requestRenderNodes (nodes : list TreeNode) : M Machine unit :=
  emit (EvRequestRenderNodes nodes) (view_requestRenderNodes this nodes).

Definition view_render_call : M Machine unit := emit EvRender (view_render this).

Definition source_load_call : M Machine unit := emit EvLoad (source_load this).

(** [source.selectedNodes.clear()] *)
Definition selectedNodes_clear : M Machine unit :=
  modify (λ m, {| source := {| selectedNodes := []; world := world (source m) |};
                  trace := trace m |}).

(** [await action.callback.call(source, { source, nodes, args, mode })] *)
Definition call_callback (name : string) (action : Action) (arg : CallbackArg)
  : M Machine unit :=
  λ m, match callback action arg (source m) with
       | (r, s') => (r, {| source := s'; trace := trace m ++ [EvCallback name arg] |})
       end.

(** *** The registry *)

(** [{ ...this.global.actions, ...this.actions }]: the entries of the
    second spread replace those of the first. *)
Definition registeredActions : gmap string Action :=
  actions this ∪ global_actions this.

(** [this.actions[name] || this.global.actions[name]]: whatever the first
    read finds is truthy. *)
Definition registeredAction (name : string) : option (Member Action) :=
  match js_get (actions this) name with
  | Some a => Some a
  | None => js_get (global_actions this) name
  end.

(** *** The invoker *)

(** The parameter [nodes] of [doAction] is [TreeNode | TreeNode[]]. *)
Inductive NodesArg :=
  | OneNode (node : TreeNode)
  | NodeArray (nodes : list TreeNode).

(** [Array.isArray(nodes) ? nodes : [nodes]] *)
Definition finalNodes_of (nodes : NodesArg) : list TreeNode :=
  match nodes with
  | OneNode n => [n]
  | NodeArray l => l
  end.

(** [catch (error) { throw error; }] *)
Definition rethrow {S A} (error : JsError) : M S A := throw error.

(** The [finally] block of [doAction]. *)
Definition doAction_finally (reload render : bool) : M Machine unit :=
  if reload then source_load_call
  else if render then view_render_call
  else ret tt.

(** [doAction(name, nodes, args = [], mode = 'n')]: an omitted parameter is
    [None].  [finalNodes[0]] of an empty array is [undefined].  For an
    inherited member [action.options] is [undefined], and destructuring it
    throws, before the [try] block is entered. *)
Definition doAction (name : string) (nodes : NodesArg)
    (args_ : option (list string)) (mode_ : option MappingMode)
  : M Machine unit :=
  let args := default [] args_ in
  let mode := default "n" mode_ in
  match registeredAction name with
  | None => ret tt
  | Some (Inherited _) =>
      throw (TypeError "Cannot destructure 'action.options' as it is undefined")
  | Some (Own action) =>
      let select := default SelectFalse (select (options action)) in
      let render := default false (render (options action)) in
      let reload := default false (reload (options action)) in
      let finalNodes := finalNodes_of nodes in
      try_finally
        (try_catch
           (match select with
            | SelectTrue =>
                let* selected := gets (λ m, selectedNodes (source m)) in
                let allNodes := uniq (finalNodes ++ selected) in
                selectedNodes_clear;;
                requestRenderNodes allNodes;;
                call_callback name action
                  {| cb_nodes := Some <$> allNodes; cb_args := args; cb_mode := mode |}
            | SelectFalse =>
                call_callback name action
                  {| cb_nodes := [finalNodes !! 0]; cb_args := args; cb_mode := mode |}
            | SelectVisual =>
                call_callback name action
                  {| cb_nodes := Some <$> finalNodes; cb_args := args; cb_mode := mode |}
            | SelectKeep =>
                let* selected := gets (λ m, selectedNodes (source m)) in
                let allNodes := uniq (finalNodes ++ selected) in
                call_callback name action
                  {| cb_nodes := Some <$> allNodes; cb_args := args; cb_mode := mode |}
            end)
           rethrow)
        (doAction_finally reload render)
  end.

(** *** The interpreter *)

(** A computation on the machine, run inside a call of [doActionExp]. *)
Definition liftM {A} (m : M Machine A) : M Frame A :=
  λ f, match m (machine f) with
       | (r, m') => (r, {| waitRelease := waitRelease f; machine := m' |})
       end.

(** [waitRelease = await this.global.waitActionMutex.acquire()] *)
Definition acquire : M Frame unit :=
  λ f, match emit EvAcquire (mutex_acquire this) (machine f) with
       | (r, m') => (r, {| waitRelease := true; machine := m' |})
       end.

(** [waitRelease?.()] *)
Definition release_if_held : M Frame unit :=
  let* wr := gets waitRelease in
  if wr : bool then liftM (emit EvRelease (mutex_release this)) else ret tt.

(** [doActionExp] reached with [undefined] for its expression:
    [Array.isArray(undefined)] is false and reading [actionExp.name]
    throws; no mutex is held by that call. *)
Definition doActionExp_undefined : M Machine unit :=
  throw (TypeError "Cannot read property 'name' of undefined").

(** [if (nodes.length) { await ... }] *)
Definition if_length {S} (nodes : list TreeNode) (m : M S unit) : M S unit :=
  match nodes with
  | [] => ret tt
  | _ :: _ => m
  end.

(** [partition(nodes, (node) => rule.filter(this.source, node, action.args))]
    for what [conditionActionRules[action.name]] found.  An inherited member
    has no [filter]: the predicate throws at the first node it is called on,
    and is not called when there is no node. *)
Definition rule_partition (rule : Member Rule) (nodes : list TreeNode)
    (args : list string) : M Frame (list TreeNode * list TreeNode) :=
  match rule with
  | Own rule =>
      let* src := gets (λ f, source (machine f)) in
      ret (partition nodes (λ node, rule_filter rule src node args))
  | Inherited _ =>
      match nodes with
      | [] => ret ([], [])
      | _ :: _ => throw (TypeError "rule.filter is not a function")
      end
  end.

Section loop.
(** The [for] loop of [doActionExp], as a function of the part of the array
    from the current index [i] on: [action] is [actionExp[i]], and the head
    of [rest] and of its tail are [actionExp[i + 1]] and [actionExp[i + 2]],
    [undefined] when [rest] is too short; after a condition rule the loop
    goes on behind those two ([i += 2], then [i++]).  [self] is
    [this.doActionExp]; [waitRelease] lives in the frame. *)
Variable self : ActionExp → list TreeNode → ExpOptions → M Machine unit.
Variable nodes : list TreeNode.
Variable isSubAction : bool.
Variable subOptions : ExpOptions.

Fixpoint doActionExp_loop (actionExp : list ActionExp) : M Frame unit :=
  match actionExp with
  | [] => ret tt
  | action :: rest =>
      match action with
      | Seq _ =>
          liftM (self action nodes subOptions);;
          doActionExp_loop rest
      | Leaf name args =>
          if decide (name = waitAction_name this) then
            let* wr := gets waitRelease in
            if (wr : bool) || isSubAction then doActionExp_loop rest
            else (acquire;; doActionExp_loop rest)
          else
            match js_get (conditionActionRules this) name with
            | Some rule =>
                let* parts := rule_partition rule nodes args in
                let '(trueNodes, falseNodes) := parts in
                match rest with
                | [] =>
                    if_length trueNodes (liftM doActionExp_undefined);;
                    if_length falseNodes (liftM doActionExp_undefined)
                | trueAction :: rest1 =>
                    match rest1 with
                    | [] =>
                        if_length trueNodes
                          (liftM (self trueAction trueNodes subOptions));;
                        if_length falseNodes (liftM doActionExp_undefined)
                    | falseAction :: rest2 =>
                        if_length trueNodes
                          (liftM (self trueAction trueNodes subOptions));;
                        if_length falseNodes
                          (liftM (self falseAction falseNodes subOptions));;
                        doActionExp_loop rest2
                    end
                end
            | None =>
                liftM (self action nodes subOptions);;
                doActionExp_loop rest
            end
      end
  end.
End loop.

(** [this.doActionExp(e, ...)] where [e] was read from the array and is
    [undefined] ([None]) past its end. *)
Definition doActionExp_opt
    (self : ActionExp → list TreeNode → ExpOptions → M Machine unit)
    (e : option ActionExp) (nodes : list TreeNode) (options : ExpOptions)
  : M Machine unit :=
  match e with
  | Some actionExp => self actionExp nodes options
  | None => doActionExp_undefined
  end.

(** One call of [doActionExp]: [waitRelease] starts out [undefined]. *)
Definition run_frame {A} (m : M Frame A) : M Machine A :=
  λ s, match m {| waitRelease := false; machine := s |} with
       | (r, f) => (r, machine f)
       end.

Fixpoint doActionExp (actionExp : ActionExp) (nodes : list TreeNode)
    (options : ExpOptions) {struct actionExp} : M Machine unit :=
  let mode_ := default "n" (mode options) in
  let isSubAction_ := default false (isSubAction options) in
  let subOptions := {| mode := Some mode_; isSubAction := Some true |} in
  run_frame
    (try_finally
       (try_catch
          (match actionExp with
           | Seq elements =>
               doActionExp_loop doActionExp nodes isSubAction_ subOptions elements
           | Leaf name args =>
               liftM (doAction name (NodeArray nodes) (Some args) (Some mode_))
           end)
          rethrow)
       release_if_held).

(** The options every nested call receives. *)
Definition subOptions_of (options : ExpOptions) : ExpOptions :=
  {| mode := Some (default "n" (mode options)); isSubAction := Some true |}.

(** The [for] loop of [doActionExp] entered at index [i] of the array. *)
Definition doActionExp_at (nodes : list TreeNode) (options : ExpOptions)
    (elements : list ActionExp) (i : nat) : M Frame unit :=
  doActionExp_loop doActionExp nodes (default false (isSubAction options))
    (subOptions_of options) (drop i elements).

(** *** Vocabulary of the statements *)

(** An element at which the loop takes the next two elements as branches:
    a leaf other than the marker for which [conditionActionRules[name]] finds
    something. *)
Definition is_router (e : ActionExp) : bool :=
  match e with
  | Leaf name _ =>
      if decide (name = waitAction_name this) then false
      else bool_decide (is_Some (js_get (conditionActionRules this) name))
  | Seq _ => false
  end.

(** The index of the loop, started at the head of [l], comes to stand at
    the end of [l]: stepping by one, and by three at a router, it never
    jumps past it ([i++], and [i += 2] before it at a router). *)
Fixpoint scanned (l : list ActionExp) : bool :=
  match l with
  | [] => true
  | e :: rest =>
      if is_router e then
        match rest with
        | _ :: rest1 =>
            match rest1 with
            | _ :: rest2 => scanned rest2
            | [] => false
            end
        | [] => false
        end
      else scanned rest
  end.

(** The loop of a call of [doActionExp] on the array [l], started on
    machine [m], comes to stand at index [i] with frame [f]: the index gets
    there, and the elements before it have completed normally. *)
Definition reaches (nodes : list TreeNode) (options : ExpOptions)
    (l : list ActionExp) (i : nat) (m : Machine) (f : Frame) : Prop :=
  scanned (take i l) = true
  ∧ doActionExp_at nodes options (take i l) 0
      {| waitRelease := false; machine := m |} = (Ok tt, f).

(** What the [catch] and [finally] blocks of [doActionExp] make of the
    outcome [out] of its [try] block. *)
Definition doActionExp_end (out : Result unit * Frame) : Result unit * Machine :=
  match try_finally (try_catch (λ _, out) rethrow) release_if_held out.2 with
  | (r, f') => (r, machine f')
  end.

(** What the [finally] block appends to the trace for given options. *)
Definition post_events (action : Action) : list Event :=
  if default false (reload (options action)) then [EvLoad]
  else if default false (render (options action)) then [EvRender]
  else [].

(** The completion, the selection and the trace of an invocation whose
    callback ran with [arg] on machine [m0]. *)
Definition settles_as (name : string) (action : Action) (arg : CallbackArg)
    (m0 : Machine) (out : Result unit * Machine) : Prop :=
  out.1 = (callback action arg (source m0)).1
  ∧ selectedNodes (source out.2) = selectedNodes (callback action arg (source m0)).2
  ∧ trace out.2 = trace m0 ++ [EvCallback name arg] ++ post_events action.

Definition is_acquire (ev : Event) : bool :=
  match ev with EvAcquire => true | _ => false end.

Definition is_release (ev : Event) : bool :=
  match ev with EvRelease => true | _ => false end.

(** How often a trace acquires, and how often it releases, the mutex. *)
Definition acquisitions (t : list Event) : nat :=
  length (filter (λ ev, is_acquire ev = true) t).

Definition releases (t : list Event) : nat :=
  length (filter (λ ev, is_release ev = true) t).

(** A step from machine [m] to [m'] that only extends the trace and does
    not touch the mutex. *)
Definition quiet_step (m m' : Machine) : Prop :=
  ∃ t, trace m' = trace m ++ t ∧ acquisitions t = 0 ∧ releases t = 0.

(** A step of the loop from frame [f] to [f']: the trace is extended,
    nothing is released, and the mutex is acquired exactly when
    [waitRelease] goes from unset to set, which a sub-action never does. *)
Definition advances (isSubAction : bool) (f f' : Frame) : Prop :=
  ∃ t, trace (machine f') = trace (machine f) ++ t
       ∧ releases t = 0
       ∧ Nat.b2n (waitRelease f) + acquisitions t = Nat.b2n (waitRelease f')
       ∧ (isSubAction = true → acquisitions t = 0).

End Engine.

(** ** The leaves of an expression *)

(** Every action reference [{ name, args }] of an expression, at any depth. *)
Fixpoint leaves (e : ActionExp) : list (string * list string) :=
  match e with
  | Leaf name args => [(name, args)]
  | Seq elements => concat (map leaves elements)
  end.

Section Callers.
Context {TreeNode : Type} `{EqDecision TreeNode} {World : Type}.
Variable this : @ActionSource TreeNode World.

(** An event that, if it is a callback, is the callback of a registered
    action named by a leaf of [e], called with that leaf's [args] and with
    mode [md]. *)
Definition called_from (e : ActionExp) (md : MappingMode)
    (ev : @Event TreeNode) : Prop :=
  match ev with
  | EvCallback name arg =>
      (name, cb_args arg) ∈ leaves e
      ∧ cb_mode arg = md
      ∧ ∃ action, registeredAction this name = Some (Own action)
  | _ => True
  end.

(** A step of the loop that extends the trace by events satisfying [P]. *)
Definition extends_with (P : @Event TreeNode → Prop) (f f' : @Frame TreeNode World)
  : Prop :=
  ∃ t, trace (machine f') = trace (machine f) ++ t ∧ Forall P t.
End Callers.

(** * The git binder

    The second source file: [statusEqual], [rootStatusEqual] and the
    [reload] method of [GitBinder], which compares what the git manager
    reports for each root with what the binder saw last time and asks the
    sources to render the paths that differ.

    - The objects [Record<string, ...>] are maps from paths, with their own
      keys only, and the two [Set<string>] are sets of paths: the order of
      their entries is not modelled.
    - The git manager is outside the file: what it reports for a root after
      [gitManager.reload(root)] is an input, the [Snapshot] of that root,
      and each report is taken to be a fresh object (the binder keeps it as
      its record of the root).
    - [GitFormat] and [GitIgnore] are declared in [./types], so they are
      parameters: values compared with [===], one of them
      [GitIgnore.directory]. *)

Module GitBinder.
Section defs.
Context {GitFormat : Type} `{EqDecision GitFormat}.
Context {GitIgnore : Type} `{EqDecision GitIgnore}.
Variable GitIgnore_directory : GitIgnore.
Context {ExplorerSource : Type}.

Record GitMixedStatus := {
  x : GitFormat;
  y : GitFormat;
}.

Record GitRootStatus := {
  allStaged : bool;
  formats : list string;
}.

Definition statusEqual (a b : GitMixedStatus) : bool :=
  bool_decide (x a = x b) && bool_decide (y a = y b).

(** [Array.prototype.join] on an array of strings. *)
Fixpoint join (sep : string) (l : list string) : string :=
  match l with
  | [] => ""
  | s :: rest =>
      match rest with
      | [] => s
      | _ :: _ => String.append s (String.append sep (join sep rest))
      end
  end.

Definition rootStatusEqual (a b : GitRootStatus) : bool :=
  if negb (bool_decide (allStaged a = allStaged b)) then false
  else bool_decide (join "," (formats a) = join "," (formats b)).

(** [fullpath.replace(/[\\/]$/, '')]: a slash or backslash that ends the
    string is removed. *)
Fixpoint strip_trailing_separator (fullpath : string) : string :=
  match fullpath with
  | EmptyString => EmptyString
  | String c rest =>
      match rest with
      | EmptyString =>
          if bool_decide (c = "/"%char) || bool_decide (c = "\"%char)
          then EmptyString else fullpath
      | String _ _ => String c (strip_trailing_separator rest)
      end
  end.

(** The fields [prevStatuses], [prevIgnores] and [prevRootStatus]. *)
Record Binder := {
  prevStatuses : gmap string (gmap string GitMixedStatus);
  prevIgnores : gmap string (gmap string GitIgnore);
  prevRootStatus : gmap string GitRootStatus;
}.

(** What [gitManager.getMixedStatusesByRoot], [getIgnoreByRoot] and
    [getRootStatus] return for a root; the last may be [undefined]. *)
Record Snapshot := {
  statuses : gmap string GitMixedStatus;
  ignores : gmap string GitIgnore;
  rootStatus : option GitRootStatus;
}.

(** The local sets [updatePaths] and [updateDirs]. *)
Record Updates := {
  updatePaths : gset string;
  updateDirs : gset string;
}.

(** [source.view.renderPaths([...updatePaths,
    { paths: updateDirs, withChildren: true }])] *)
Inductive RenderCall :=
  | RenderPaths (source : ExplorerSource) (paths : gset string) (dirs : gset string).

Definition addGitIgnore (fullpath : string) (gitIgnore : GitIgnore)
    (u : Updates) : Updates :=
  if decide (gitIgnore = GitIgnore_directory) then
    {| updatePaths := updatePaths u;
       updateDirs := updateDirs u ∪ {[ strip_trailing_separator fullpath ]} |}
  else
    {| updatePaths := updatePaths u ∪ {[ fullpath ]};
       updateDirs := updateDirs u |}.

(** The body of [for (const [fullpath, status] of Object.entries(statuses))]:
    [prev] is [this.prevStatuses[root]]. *)
Definition status_step (fullpath : string) (status : GitMixedStatus)
    (acc : gmap string GitMixedStatus * gset string)
  : gmap string GitMixedStatus * gset string :=
  match acc.1 !! fullpath with
  | Some old =>
      if statusEqual old status then (delete fullpath acc.1, acc.2)
      else (acc.1, acc.2 ∪ {[ fullpath ]})
  | None => (acc.1, acc.2 ∪ {[ fullpath ]})
  end.

(** The body of [for (const [fullpath, gitIgnore] of Object.entries(ignores))]:
    [prev] is [this.prevIgnores[root]]. *)
Definition ignore_step (fullpath : string) (gitIgnore : GitIgnore)
    (acc : gmap string GitIgnore * Updates) : gmap string GitIgnore * Updates :=
  match acc.1 !! fullpath with
  | Some old =>
      if decide (old = gitIgnore) then (delete fullpath acc.1, acc.2)
      else (acc.1, addGitIgnore fullpath gitIgnore acc.2)
  | None => (acc.1, addGitIgnore fullpath gitIgnore acc.2)
  end.

Definition noRootStatus : GitRootStatus := {| allStaged := false; formats := [] |}.

(** The body of [for (const root of roots)], given what the git manager
    reports for [root]. *)
Definition reload_root (root : string) (snapshot : Snapshot)
    (state : Binder * Updates) : Binder * Updates :=
  let this := state.1 in
  let rootStatus := default noRootStatus (rootStatus snapshot) in
  let prevS := default ∅ (prevStatuses this !! root) in
  let prevI := default ∅ (prevIgnores this !! root) in
  let prevR := default noRootStatus (prevRootStatus this !! root) in
  (* render paths *)
  let after_statuses :=
    map_fold status_step (prevS, updatePaths state.2) (statuses snapshot) in
  let paths := after_statuses.2 ∪ dom after_statuses.1 in
  (* ignore *)
  let after_ignores :=
    map_fold ignore_step
      (prevI, {| updatePaths := paths; updateDirs := updateDirs state.2 |})
      (ignores snapshot) in
  let updates := map_fold addGitIgnore after_ignores.2 after_ignores.1 in
  (* root *)
  let updates :=
    if negb (rootStatusEqual prevR rootStatus) then
      {| updatePaths := updatePaths updates ∪ {[ root ]};
         updateDirs := updateDirs updates |}
    else updates in
  ({| prevStatuses := <[root := statuses snapshot]> (prevStatuses this);
      prevIgnores := <[root := ignores snapshot]> (prevIgnores this);
      prevRootStatus := <[root := rootStatus]> (prevRootStatus this) |},
   updates).

(** [reload(sources, directories)]: [observed] lists the roots that
    [gitManager.getGitRoots(directories)] returns, each with what the git
    manager reports for it when the loop reaches it. *)
Definition reload (sources : list ExplorerSource)
    (observed : list (string * Snapshot)) (this : Binder)
  : Binder * list RenderCall :=
  match observed with
  | [] => (this, [])
  | _ :: _ =>
      let state :=
        foldl (λ state root, reload_root root.1 root.2 state)
          (this, {| updatePaths := ∅; updateDirs := ∅ |}) observed in
      (state.1,
       (λ source, RenderPaths source (updatePaths state.2) (updateDirs state.2))
         <$> sources)
  end.

(** *** Vocabulary of the statements *)

(** Whether the binder's record of a path and the report agree. *)
Definition same_status (recorded reported : option GitMixedStatus) : bool :=
  match recorded, reported with
  | Some a, Some b => statusEqual a b
  | None, None => true
  | _, _ => false
  end.

(** Whether character [c] occurs in [s]. *)
Fixpoint occurs (c : Ascii.ascii) (s : string) : bool :=
  match s with
  | EmptyString => false
  | String c' rest => bool_decide (c' = c) || occurs c rest
  end.

(** A format that is not empty and has no comma in it. *)
Definition plain_format (s : string) : Prop :=
  s ≠ "" ∧ occurs ","%char s = false.

(** The binder has [snapshot] as its record of [root]. *)
Definition records (this : Binder) (root : string) (snapshot : Snapshot) : Prop :=
  prevStatuses this !! root = Some (statuses snapshot)
  ∧ prevIgnores this !! root = Some (ignores snapshot)
  ∧ prevRootStatus this !! root = Some (default noRootStatus (rootStatus snapshot)).
End defs.
End GitBinder.

(** ** A concrete explorer, used to exercise the statements below *)

Module Example.
(** Nodes are numbered; the rest of the state counts collaborator calls. *)
Definition quiet_callback
  : @CallbackArg nat → @Source nat nat → Result unit * @Source nat nat :=
  λ _ s, (Ok tt, s).

Definition failing_callback
  : @CallbackArg nat → @Source nat nat → Result unit * @Source nat nat :=
  λ _ s, (Throw (Thrown "EACCES"), s).

Definition action_of (sel : option SelectOption) (rn rl : option bool)
    (cb : @CallbackArg nat → @Source nat nat → Result unit * @Source nat nat)
    (descr : string) : @Action nat nat :=
  {| options := {| select := sel; render := rn; reload := rl |};
     callback := cb;
     description := descr |}.

Definition open_local := action_of None None None quiet_callback "open (local)".
Definition open_global := action_of None (Some true) None quiet_callback "open (global)".
Definition delete_selected :=
  action_of (Some SelectTrue) None (Some true) quiet_callback "delete".
Definition broken :=
  action_of (Some SelectVisual) (Some true) (Some true) failing_callback "broken".
Definition mark := action_of (Some SelectKeep) (Some true) None quiet_callback "mark".

Definition is_even : @Rule nat nat :=
  {| rule_filter := λ _ node _, Nat.even node |}.

Definition explorer : @ActionSource nat nat :=
  {| actions := {[ "open" := open_local; "delete" := delete_selected ]};
     global_actions := {[ "open" := open_global; "mark" := mark; "broken" := broken ]};
     view_requestRenderNodes := λ nodes w, w + length nodes;
     view_render := S;
     source_load := S;
     mutex_acquire := S;
     mutex_release := S;
     conditionActionRules := {[ "even?" := is_even ]};
     waitAction_name := "wait" |}.

(** The same explorer with an action registered under the marker's name. *)
Definition wait_action := action_of None None None quiet_callback "wait".

Definition explorer_wait : @ActionSource nat nat :=
  {| actions := actions explorer;
     global_actions := <[ "wait" := wait_action ]> (global_actions explorer);
     view_requestRenderNodes := view_requestRenderNodes explorer;
     view_render := view_render explorer;
     source_load := source_load explorer;
     mutex_acquire := mutex_acquire explorer;
     mutex_release := mutex_release explorer;
     conditionActionRules := conditionActionRules explorer;
     waitAction_name := waitAction_name explorer |}.

Definition start (selected : list nat) : @Machine nat nat :=
  {| source := {| selectedNodes := selected; world := 0 |}; trace := [] |}.

Definition fresh : @Frame nat nat :=
  {| waitRelease := false; machine := start [] |}.
End Example.

(** ** A concrete repository, used to exercise the statements on the binder *)

Module GitExample.
(** Formats are the letters of [git status]; an ignore entry is [true] for a
    directory; sources are numbered. *)
Definition modified : @GitBinder.GitMixedStatus string :=
  {| GitBinder.x := "M"; GitBinder.y := " " |}.

Definition added : @GitBinder.GitMixedStatus string :=
  {| GitBinder.x := "A"; GitBinder.y := " " |}.

Definition report : @GitBinder.Snapshot string bool :=
  {| GitBinder.statuses := {[ "/repo/a.txt" := modified; "/repo/b.txt" := added ]};
     GitBinder.ignores := {[ "/repo/build/" := true; "/repo/x.log" := false ]};
     GitBinder.rootStatus :=
       Some {| GitBinder.allStaged := false; GitBinder.formats := ["M"; "A"] |} |}.

Definition later_report : @GitBinder.Snapshot string bool :=
  {| GitBinder.statuses := {[ "/repo/a.txt" := modified; "/repo/c.txt" := added ]};
     GitBinder.ignores := {[ "/repo/build/" := true ]};
     GitBinder.rootStatus :=
       Some {| GitBinder.allStaged := false; GitBinder.formats := ["M"; "A"] |} |}.

Definition unbound : @GitBinder.Binder string bool :=
  {| GitBinder.prevStatuses := ∅;
     GitBinder.prevIgnores := ∅;
     GitBinder.prevRootStatus := ∅ |}.
End GitExample.

(** ** The monad *)

Lemma try_catch_rethrow {S A} (body : M S A) (s : S) :
  try_catch body rethrow s = body s.
Proof.
  unfold try_catch, rethrow, throw.
  destruct (body s) as [[a|e] s']; reflexivity.
Qed.

Lemma bind_ret_tt {S} (m : M S unit) (s : S) :
  (m ;; ret tt) s = m s.
Proof.
  unfold bind, ret.
  destruct (m s) as [[[]|e] s']; reflexivity.
Qed.

(** ** [uniq] and [partition] *)

Section util_facts.
Context {A : Type} `{EqDecision A}.
Implicit Types (l seen : list A) (x : A).

Lemma elem_of_uniq_from seen l x :
  x ∈ uniq_from seen l ↔ x ∈ l ∧ x ∉ seen.
Proof.
  revert seen. induction l as [|y l IH]; intros seen; simpl.
  - set_solver.
  - case_decide as Hy.
    + rewrite IH. set_solver.
    + rewrite elem_of_cons, IH.
      destruct (decide (x = y)) as [->|Hne]; set_solver.
Qed.

Lemma NoDup_uniq_from seen l : NoDup (uniq_from seen l).
Proof.
  revert seen. induction l as [|y l IH]; intros seen; simpl.
  - constructor.
  - case_decide; [apply IH|].
    constructor; [|apply IH].
    rewrite elem_of_uniq_from. set_solver.
Qed.

Lemma elem_of_uniq l x : x ∈ uniq l ↔ x ∈ l.
Proof. unfold uniq. rewrite elem_of_uniq_from. set_solver. Qed.

Lemma NoDup_uniq l : NoDup (uniq l).
Proof. apply NoDup_uniq_from. Qed.

Lemma elem_of_uniq_app l1 l2 x : x ∈ uniq (l1 ++ l2) ↔ x ∈ l1 ∨ x ∈ l2.
Proof. rewrite elem_of_uniq. apply elem_of_app. Qed.

Lemma elem_of_partition_true l (p : A → bool) x :
  x ∈ (partition l p).1 ↔ x ∈ l ∧ p x = true.
Proof. unfold partition; simpl. rewrite list_elem_of_filter. tauto. Qed.

Lemma elem_of_partition_false l (p : A → bool) x :
  x ∈ (partition l p).2 ↔ x ∈ l ∧ p x = false.
Proof. unfold partition; simpl. rewrite list_elem_of_filter. tauto. Qed.
End util_facts.

(** ** The registry and the invoker *)

Section Properties.
Context {TreeNode : Type} `{EqDecision TreeNode} {World : Type}.
Variable this : @ActionSource TreeNode World.
Implicit Types (m : @Machine TreeNode World) (action : @Action TreeNode World).
Implicit Types (name : string).
Implicit Types (mode : option MappingMode).

(** C9: a name registered in both registries resolves to the local action,
    and the merged mapping used for listing holds the local entry too. *)
Theorem registeredAction_local_first name local_action global_action :
  actions this !! name = Some local_action →
  global_actions this !! name = Some global_action →
  registeredAction this name = Some (Own local_action)
  ∧ registeredActions this !! name = Some local_action.
Proof.
  intros Hl Hg. split.
  - unfold registeredAction, js_get. by rewrite Hl.
  - unfold registeredActions. by apply lookup_union_Some_l.
Qed.

Lemma js_get_own {V} (obj : gmap string V) name v :
  obj !! name = Some v → js_get obj name = Some (Own v).
Proof. intros Hv. unfold js_get. by rewrite Hv. Qed.

Lemma js_get_None {V} (obj : gmap string V) name :
  js_get obj name = None ↔ obj !! name = None ∧ name ∉ Object_prototype_names.
Proof.
  unfold js_get. destruct (obj !! name); [naive_solver|].
  case_decide; naive_solver.
Qed.

Lemma js_get_inherited {V} (obj : gmap string V) name :
  obj !! name = None → name ∈ Object_prototype_names →
  js_get obj name = Some (Inherited name).
Proof. intros Hv Hin. unfold js_get. rewrite Hv. by rewrite decide_True. Qed.

Lemma doAction_no_member name nodes (args : option (list string)) mode m :
  registeredAction this name = None →
  doAction this name nodes args mode m = (Ok tt, m).
Proof. intros Hres. unfold doAction. by rewrite Hres. Qed.

Lemma doAction_inherited_member name nodes (args : option (list string)) mode m :
  registeredAction this name = Some (Inherited name) →
  ∃ msg, doAction this name nodes args mode m = (Throw (TypeError msg), m).
Proof. intros Hres. unfold doAction. rewrite Hres. by eexists. Qed.

(** *** One resolved invocation

    The [finally] block, and the shape every resolved invocation has: the
    callback runs once on some machine, then the [finally] block runs. *)

Lemma doAction_finally_eq (reload render : bool) m :
  doAction_finally this reload render m =
    (Ok tt,
     if reload then
       {| source := on_world (source_load this) (source m);
          trace := trace m ++ [EvLoad] |}
     else if render then
       {| source := on_world (view_render this) (source m);
          trace := trace m ++ [EvRender] |}
     else m).
Proof. destruct reload, render; reflexivity. Qed.

Lemma callback_then_finally name action arg (reload render : bool) m0 :
  try_finally (try_catch (call_callback name action arg) rethrow)
    (doAction_finally this reload render) m0 =
  ((callback action arg (source m0)).1,
   (doAction_finally this reload render
      {| source := (callback action arg (source m0)).2;
         trace := trace m0 ++ [EvCallback name arg] |}).2).
Proof.
  unfold try_finally. rewrite try_catch_rethrow. unfold call_callback.
  destruct (callback action arg (source m0)) as [r s1]; simpl.
  rewrite doAction_finally_eq. reflexivity.
Qed.

Lemma callback_then_finally_eq name action arg (reload render : bool) m0 :
  let settled := callback action arg (source m0) in
  let m1 := {| source := settled.2; trace := trace m0 ++ [EvCallback name arg] |} in
  try_finally (try_catch (call_callback name action arg) rethrow)
    (doAction_finally this reload render) m0 =
  (settled.1,
   if reload then
     {| source := on_world (source_load this) (source m1);
        trace := trace m1 ++ [EvLoad] |}
   else if render then
     {| source := on_world (view_render this) (source m1);
        trace := trace m1 ++ [EvRender] |}
   else m1).
Proof.
  intros settled m1. rewrite callback_then_finally, doAction_finally_eq.
  reflexivity.
Qed.

Lemma selectedNodes_finally (reload render : bool) m :
  selectedNodes (source (doAction_finally this reload render m).2)
  = selectedNodes (source m).
Proof. destruct reload, render; reflexivity. Qed.

Lemma trace_finally (reload render : bool) m :
  trace (doAction_finally this reload render m).2
  = trace m ++ (if reload then [EvLoad] else if render then [EvRender] else []).
Proof. destruct reload, render; simpl; by rewrite ?app_nil_r. Qed.

Lemma settles_as_intro name action arg m0 :
  settles_as name action arg m0
    (try_finally (try_catch (call_callback name action arg) rethrow)
       (doAction_finally this (default false (reload (options action)))
          (default false (render (options action)))) m0).
Proof.
  rewrite callback_then_finally. unfold settles_as; simpl.
  split; [done|]. split.
  - by rewrite selectedNodes_finally.
  - rewrite trace_finally. unfold post_events. cbn [trace].
    by rewrite <- (assoc_L (++)).
Qed.

Lemma doAction_select_settles name nodes (args : option (list string)) mode action m :
  registeredAction this name = Some (Own action) →
  select (options action) = Some SelectTrue →
  let allNodes := uniq (finalNodes_of nodes ++ selectedNodes (source m)) in
  settles_as name action
    {| cb_nodes := Some <$> allNodes;
       cb_args := default [] args; cb_mode := default "n" mode |}
    {| source := {| selectedNodes := [];
                    world := view_requestRenderNodes this allNodes (world (source m)) |};
       trace := trace m ++ [EvRequestRenderNodes allNodes] |}
    (doAction this name nodes args mode m).
Proof.
  intros Hres Hsel allNodes. unfold doAction. rewrite Hres, Hsel.
  apply settles_as_intro.
Qed.

Lemma doAction_keep_settles name nodes (args : option (list string)) mode action m :
  registeredAction this name = Some (Own action) →
  select (options action) = Some SelectKeep →
  let allNodes := uniq (finalNodes_of nodes ++ selectedNodes (source m)) in
  settles_as name action
    {| cb_nodes := Some <$> allNodes;
       cb_args := default [] args; cb_mode := default "n" mode |}
    m (doAction this name nodes args mode m).
Proof.
  intros Hres Hsel allNodes. unfold doAction. rewrite Hres, Hsel.
  apply settles_as_intro.
Qed.

Lemma doAction_visual_settles name nodes (args : option (list string)) mode action m :
  registeredAction this name = Some (Own action) →
  select (options action) = Some SelectVisual →
  settles_as name action
    {| cb_nodes := Some <$> finalNodes_of nodes;
       cb_args := default [] args; cb_mode := default "n" mode |}
    m (doAction this name nodes args mode m).
Proof.
  intros Hres Hsel. unfold doAction. rewrite Hres, Hsel.
  apply settles_as_intro.
Qed.

Lemma doAction_single_settles name nodes (args : option (list string)) mode action m :
  registeredAction this name = Some (Own action) →
  default SelectFalse (select (options action)) = SelectFalse →
  settles_as name action
    {| cb_nodes := [finalNodes_of nodes !! 0];
       cb_args := default [] args; cb_mode := default "n" mode |}
    m (doAction this name nodes args mode m).
Proof.
  intros Hres Hsel. unfold doAction. rewrite Hres, Hsel.
  apply settles_as_intro.
Qed.

(** C1: with [select === true] the callback receives the duplicate-free
    union of the supplied nodes and the selection; before it runs the
    selection has been cleared and a re-render of the whole union has been
    requested; if the callback leaves the selection alone, the selection is
    empty afterwards. *)
Theorem doAction_select name nodes (args : option (list string)) mode action m :
  registeredAction this name = Some (Own action) →
  select (options action) = Some SelectTrue →
  let allNodes := uniq (finalNodes_of nodes ++ selectedNodes (source m)) in
  let arg := {| cb_nodes := Some <$> allNodes;
                cb_args := default [] args; cb_mode := default "n" mode |} in
  let cleared :=
    {| selectedNodes := [];
       world := view_requestRenderNodes this allNodes (world (source m)) |} in
  let out := doAction this name nodes args mode m in
  NoDup allNodes
  ∧ (∀ x, x ∈ allNodes ↔ x ∈ finalNodes_of nodes ∨ x ∈ selectedNodes (source m))
  ∧ out.1 = (callback action arg cleared).1
  ∧ selectedNodes (source out.2) = selectedNodes (callback action arg cleared).2
  ∧ trace out.2 =
      trace m ++ [EvRequestRenderNodes allNodes; EvCallback name arg]
        ++ post_events action
  ∧ ((∀ a s, selectedNodes (callback action a s).2 = selectedNodes s) →
     selectedNodes (source out.2) = []).
Proof.
  intros Hres Hsel allNodes arg cleared out.
  destruct (doAction_select_settles name nodes args mode action m Hres Hsel)
    as (Hr & Hs & Ht).
  fold allNodes arg out in Hr, Hs, Ht. simpl in Hr, Hs, Ht. fold cleared in Hr, Hs.
  split; [apply NoDup_uniq|].
  split; [intros x; apply elem_of_uniq_app|].
  split; [exact Hr|]. split; [exact Hs|]. split.
  - rewrite Ht. by rewrite <- (assoc_L (++)).
  - intros Hframe. rewrite Hs, Hframe. reflexivity.
Qed.

(** C3: with [select === 'keep'] the callback receives the same union, and
    it runs on the source exactly as [doAction] found it: the selection is
    neither cleared nor changed by the invoker, and no re-render of nodes
    is requested (the trace gains the callback and the [finally] block
    only). *)
Theorem doAction_keep name nodes (args : option (list string)) mode action m :
  registeredAction this name = Some (Own action) →
  select (options action) = Some SelectKeep →
  let allNodes := uniq (finalNodes_of nodes ++ selectedNodes (source m)) in
  let arg := {| cb_nodes := Some <$> allNodes;
                cb_args := default [] args; cb_mode := default "n" mode |} in
  let out := doAction this name nodes args mode m in
  NoDup allNodes
  ∧ (∀ x, x ∈ allNodes ↔ x ∈ finalNodes_of nodes ∨ x ∈ selectedNodes (source m))
  ∧ out.1 = (callback action arg (source m)).1
  ∧ selectedNodes (source out.2) = selectedNodes (callback action arg (source m)).2
  ∧ trace out.2 = trace m ++ [EvCallback name arg] ++ post_events action
  ∧ (∀ requested,
       EvRequestRenderNodes requested ∉ [EvCallback name arg] ++ post_events action).
Proof.
  intros Hres Hsel allNodes arg out.
  destruct (doAction_keep_settles name nodes args mode action m Hres Hsel)
    as (Hr & Hs & Ht).
  split; [apply NoDup_uniq|].
  split; [intros x; apply elem_of_uniq_app|].
  split; [exact Hr|]. split; [exact Hs|]. split; [exact Ht|].
  intros requested. unfold post_events.
  destruct (default false (reload (options action))),
    (default false (render (options action))); set_solver.
Qed.

(** C2, as the code has it: with [select === 'keep'] and a callback that
    leaves the selection alone, the selection after the invocation is the
    selection before it (not the union); the callback received the
    union. *)
Theorem doAction_keep_selection name nodes (args : option (list string)) mode action m :
  registeredAction this name = Some (Own action) →
  select (options action) = Some SelectKeep →
  let allNodes := uniq (finalNodes_of nodes ++ selectedNodes (source m)) in
  let arg := {| cb_nodes := Some <$> allNodes;
                cb_args := default [] args; cb_mode := default "n" mode |} in
  let out := doAction this name nodes args mode m in
  ((∀ a s, selectedNodes (callback action a s).2 = selectedNodes s) →
   selectedNodes (source out.2) = selectedNodes (source m))
  ∧ out.1 = (callback action arg (source m)).1
  ∧ trace out.2 = trace m ++ [EvCallback name arg] ++ post_events action.
Proof.
  intros Hres Hsel allNodes arg out.
  destruct (doAction_keep_settles name nodes args mode action m Hres Hsel)
    as (Hr & Hs & Ht).
  split; [|split].
  - intros Hframe. etrans; [exact Hs|]. apply Hframe.
  - exact Hr.
  - exact Ht.
Qed.

(** C7: with [select] absent or [false] and at least one supplied node, the
    callback receives the one-element list holding the first supplied node,
    whatever the selection is, and it runs on the source as [doAction]
    found it; the trace gains the callback and the [finally] block only,
    and a callback that leaves the selection alone leaves it as it was. *)
Theorem doAction_replace_single name nodes (args : option (list string)) mode
    action m first others :
  registeredAction this name = Some (Own action) →
  select (options action) = None ∨ select (options action) = Some SelectFalse →
  finalNodes_of nodes = first :: others →
  let arg := {| cb_nodes := [Some first];
                cb_args := default [] args; cb_mode := default "n" mode |} in
  let out := doAction this name nodes args mode m in
  out.1 = (callback action arg (source m)).1
  ∧ selectedNodes (source out.2) = selectedNodes (callback action arg (source m)).2
  ∧ trace out.2 = trace m ++ [EvCallback name arg] ++ post_events action
  ∧ ((∀ a s, selectedNodes (callback action a s).2 = selectedNodes s) →
     selectedNodes (source out.2) = selectedNodes (source m)).
Proof.
  intros Hres Hsel Hnodes arg out.
  assert (default SelectFalse (select (options action)) = SelectFalse) as Hdef
    by (destruct Hsel as [-> | ->]; reflexivity).
  destruct (doAction_single_settles name nodes args mode action m Hres Hdef)
    as (Hr & Hs & Ht).
  rewrite Hnodes in Hr, Hs, Ht. simpl in Hr, Hs, Ht.
  split; [exact Hr|]. split; [exact Hs|]. split; [exact Ht|].
  intros Hframe. etrans; [exact Hs|]. apply Hframe.
Qed.

(** C6: for a resolved action the callback runs once, and the [finally]
    block runs after it whatever its completion: a reload if [reload] is
    set, otherwise a render if [render] is set, otherwise nothing, so at
    most one of the two; the completion of [doAction] is the completion
    of the callback, thrown error included. *)
Theorem doAction_post_effects name nodes (args : option (list string)) mode action m :
  registeredAction this name = Some (Own action) →
  ∃ arg m0 before,
    trace m0 = trace m ++ before
    ∧ (EvLoad ∉ before) ∧ (EvRender ∉ before)
    ∧ (let settled := callback action arg (source m0) in
       let m1 := {| source := settled.2; trace := trace m0 ++ [EvCallback name arg] |} in
       doAction this name nodes args mode m =
         (settled.1,
          if default false (reload (options action)) then
            {| source := on_world (source_load this) (source m1);
               trace := trace m1 ++ [EvLoad] |}
          else if default false (render (options action)) then
            {| source := on_world (view_render this) (source m1);
               trace := trace m1 ++ [EvRender] |}
          else m1)).
Proof.
  intros Hres. unfold doAction. rewrite Hres.
  set (allNodes := uniq (finalNodes_of nodes ++ selectedNodes (source m))).
  set (rl := default false (reload (options action))).
  set (rn := default false (render (options action))).
  destruct (default SelectFalse (select (options action))).
  - exists {| cb_nodes := Some <$> allNodes;
              cb_args := default [] args; cb_mode := default "n" mode |},
      {| source := {| selectedNodes := [];
                      world := view_requestRenderNodes this allNodes (world (source m)) |};
         trace := trace m ++ [EvRequestRenderNodes allNodes] |},
      [EvRequestRenderNodes allNodes].
    split; [reflexivity|]. split; [set_solver|]. split; [set_solver|].
    exact (callback_then_finally_eq name action _ rl rn _).
  - exists {| cb_nodes := [finalNodes_of nodes !! 0];
              cb_args := default [] args; cb_mode := default "n" mode |}, m, [].
    split; [by rewrite app_nil_r|]. split; [set_solver|]. split; [set_solver|].
    exact (callback_then_finally_eq name action _ rl rn _).
  - exists {| cb_nodes := Some <$> finalNodes_of nodes;
              cb_args := default [] args; cb_mode := default "n" mode |}, m, [].
    split; [by rewrite app_nil_r|]. split; [set_solver|]. split; [set_solver|].
    exact (callback_then_finally_eq name action _ rl rn _).
  - exists {| cb_nodes := Some <$> allNodes;
              cb_args := default [] args; cb_mode := default "n" mode |}, m, [].
    split; [by rewrite app_nil_r|]. split; [set_solver|]. split; [set_solver|].
    exact (callback_then_finally_eq name action _ rl rn _).
Qed.

(** *** The loop, by index *)

Lemma bind_bind_ret_tt {S} (m1 m2 : M S unit) (s : S) :
  (m1 ;; m2 ;; ret tt) s = (m1 ;; m2) s.
Proof.
  unfold bind at 1 3. destruct (m1 s) as [[[]|e] s']; [|reflexivity].
  apply bind_ret_tt.
Qed.

Lemma doActionExp_at_end nodes options (l : list ActionExp) i :
  l !! i = None → doActionExp_at this nodes options l i = ret tt.
Proof.
  intros Hi. unfold doActionExp_at.
  rewrite drop_ge by (by apply lookup_ge_None). reflexivity.
Qed.

Lemma doActionExp_at_marker nodes options (l : list ActionExp) i args f :
  l !! i = Some (Leaf (waitAction_name this) args) →
  doActionExp_at this nodes options l i f =
    if waitRelease f || default false (isSubAction options)
    then doActionExp_at this nodes options l (S i) f
    else doActionExp_at this nodes options l (S i)
           {| waitRelease := true;
              machine := {| source := on_world (mutex_acquire this) (source (machine f));
                            trace := trace (machine f) ++ [EvAcquire] |} |}.
Proof.
  intros Hi. unfold doActionExp_at. rewrite (drop_S _ _ _ Hi).
  cbn [doActionExp_loop]. rewrite decide_True by done.
  unfold bind at 1, gets at 1.
  destruct (waitRelease f || default false (isSubAction options)); reflexivity.
Qed.

Lemma doActionExp_at_router nodes options (l : list ActionExp) i name args rule f :
  l !! i = Some (Leaf name args) →
  name ≠ waitAction_name this →
  conditionActionRules this !! name = Some rule →
  let parts := partition nodes (λ node, rule_filter rule (source (machine f)) node args) in
  let sub := subOptions_of options in
  doActionExp_at this nodes options l i f =
    (if_length parts.1
       (liftM (doActionExp_opt (doActionExp this) (l !! (i + 1)) parts.1 sub));;
     if_length parts.2
       (liftM (doActionExp_opt (doActionExp this) (l !! (i + 2)) parts.2 sub));;
     doActionExp_at this nodes options l (i + 3)) f.
Proof.
  intros Hi Hname Hrule parts sub. unfold doActionExp_at at 1.
  rewrite (drop_S _ _ _ Hi).
  cbn [doActionExp_loop]. rewrite decide_False by done.
  rewrite (js_get_own _ _ _ Hrule). cbn [rule_partition].
  unfold bind at 1 2, gets at 1, ret at 1. cbn [machine]. fold parts.
  destruct parts as [trueNodes falseNodes] eqn:Hparts. cbn [fst snd].
  replace (i + 1) with (S i) by lia. replace (i + 2) with (S (S i)) by lia.
  replace (i + 3) with (S (S (S i))) by lia.
  destruct (l !! S i) as [trueAction|] eqn:Ht.
  - rewrite (drop_S _ _ _ Ht).
    destruct (l !! S (S i)) as [falseAction|] eqn:Hf.
    + rewrite (drop_S _ _ _ Hf). reflexivity.
    + rewrite (drop_ge l (S (S i))) by (by apply lookup_ge_None).
      rewrite doActionExp_at_end by (apply lookup_ge_None; apply lookup_ge_None in Hf; lia).
      cbn [doActionExp_opt]. by rewrite bind_bind_ret_tt.
  - rewrite (drop_ge l (S i)) by (by apply lookup_ge_None).
    assert (l !! S (S i) = None) as ->
      by (apply lookup_ge_None; apply lookup_ge_None in Ht; lia).
    rewrite doActionExp_at_end by (apply lookup_ge_None; apply lookup_ge_None in Ht; lia).
    cbn [doActionExp_opt]. by rewrite bind_bind_ret_tt.
Qed.

(** *** The mutex *)

Lemma doActionExp_Seq nodes options (l : list ActionExp) :
  doActionExp this (Seq l) nodes options =
    run_frame
      (try_finally (try_catch (doActionExp_at this nodes options l 0) rethrow)
         (release_if_held this)).
Proof. reflexivity. Qed.

Lemma doActionExp_Leaf nodes options name args :
  doActionExp this (Leaf name args) nodes options =
    run_frame
      (try_finally
         (try_catch
            (liftM (doAction this name (NodeArray nodes) (Some args)
                      (Some (default "n" (mode options)))))
            rethrow)
         (release_if_held this)).
Proof. reflexivity. Qed.

Lemma ActionExp_nested_ind (P : ActionExp → Prop) :
  (∀ name args, P (Leaf name args)) →
  (∀ elements, Forall P elements → P (Seq elements)) →
  ∀ e, P e.
Proof.
  intros Hleaf Hseq. fix go 1. intros [name args|elements].
  - apply Hleaf.
  - apply Hseq. induction elements as [|x elements IH]; constructor.
    + apply go.
    + exact IH.
Qed.

Lemma acquisitions_app (t1 t2 : list (@Event TreeNode)) :
  acquisitions (t1 ++ t2) = acquisitions t1 + acquisitions t2.
Proof. unfold acquisitions. by rewrite filter_app, length_app. Qed.

Lemma releases_app (t1 t2 : list (@Event TreeNode)) :
  releases (t1 ++ t2) = releases t1 + releases t2.
Proof. unfold releases. by rewrite filter_app, length_app. Qed.

Lemma quiet_step_refl m : quiet_step m m.
Proof. exists []. by rewrite app_nil_r. Qed.

Lemma advances_refl isSub (f : @Frame TreeNode World) : advances isSub f f.
Proof.
  exists []. rewrite app_nil_r. unfold releases, acquisitions; simpl.
  repeat split; auto with lia.
Qed.

Lemma advances_trans isSub (f1 f2 f3 : @Frame TreeNode World) :
  advances isSub f1 f2 → advances isSub f2 f3 → advances isSub f1 f3.
Proof.
  intros (t1 & Ht1 & Hr1 & Ha1 & Hs1) (t2 & Ht2 & Hr2 & Ha2 & Hs2).
  exists (t1 ++ t2). rewrite Ht2, Ht1, releases_app, acquisitions_app.
  split; [by rewrite <- (assoc_L (++))|].
  split; [lia|]. split; [lia|].
  intros Hsub. rewrite Hs1, Hs2 by done. reflexivity.
Qed.

Lemma advances_bind isSub {A} (c : M Frame A) (k : A → M Frame unit)
    (f : @Frame TreeNode World) :
  advances isSub f (c f).2 →
  (∀ a f1, advances isSub f1 (k a f1).2) →
  advances isSub f (bind c k f).2.
Proof.
  intros Hc Hk. unfold bind.
  destruct (c f) as [[a|e] f1]; simpl in *; [|exact Hc].
  eapply advances_trans; [exact Hc|apply Hk].
Qed.

Lemma advances_liftM isSub (c : M Machine unit) (f : @Frame TreeNode World) :
  quiet_step (machine f) (c (machine f)).2 →
  advances isSub f (liftM c f).2.
Proof.
  intros (t & Ht & Ha & Hr). unfold liftM.
  destruct (c (machine f)) as [r m']; simpl in *.
  exists t. rewrite Ha. repeat split; auto with lia.
Qed.

Lemma advances_if_length isSub (ns : list TreeNode) (c : M Frame unit)
    (f : @Frame TreeNode World) :
  advances isSub f (c f).2 → advances isSub f (if_length ns c f).2.
Proof. destruct ns; [intros _; apply advances_refl|done]. Qed.

Lemma advances_acquire (f : @Frame TreeNode World) :
  waitRelease f = false → advances false f (acquire this f).2.
Proof.
  intros Hwr. exists [EvAcquire]. simpl. rewrite Hwr.
  repeat split; auto with lia.
Qed.

Lemma doAction_quiet name nodes (args : option (list string)) mode m :
  quiet_step m (doAction this name nodes args mode m).2.
Proof.
  destruct (registeredAction this name) as [[action|inherited]|] eqn:Hres;
    [|unfold doAction; rewrite Hres; apply quiet_step_refl..].
  - assert (∃ arg m0 before,
               trace m0 = trace m ++ before
               ∧ acquisitions before = 0 ∧ releases before = 0
               ∧ settles_as name action arg m0 (doAction this name nodes args mode m))
      as (arg & m0 & before & Hm0 & Ha & Hr & _ & _ & Ht).
    { destruct (select (options action)) as [[]|] eqn:Hsel.
      - eexists _, _, [EvRequestRenderNodes _].
        split; [|split; [|split; [|by apply doAction_select_settles]]]; done.
      - eexists _, m, [].
        split; [by rewrite app_nil_r|]. split; [done|]. split; [done|].
        apply doAction_single_settles; [done|by rewrite Hsel].
      - eexists _, m, [].
        split; [by rewrite app_nil_r|]. split; [done|]. split; [done|].
        by apply doAction_visual_settles.
      - eexists _, m, [].
        split; [by rewrite app_nil_r|]. split; [done|]. split; [done|].
        by apply doAction_keep_settles.
      - eexists _, m, [].
        split; [by rewrite app_nil_r|]. split; [done|]. split; [done|].
        apply doAction_single_settles; [done|by rewrite Hsel]. }
    exists (before ++ [EvCallback name arg] ++ post_events action).
    rewrite Ht, Hm0, !acquisitions_app, !releases_app, Ha, Hr.
    split; [by rewrite <- !(assoc_L (++))|].
    unfold post_events.
    destruct (default false (reload (options action))),
      (default false (render (options action))); done.
Qed.

Lemma rule_partition_frame rule nodes args (f : @Frame TreeNode World) :
  (rule_partition rule nodes args f).2 = f.
Proof. destruct rule as [rule|inherited]; [reflexivity|]. by destruct nodes. Qed.

Lemma doActionExp_loop_advances self nodes (isSub : bool) sub (l : list ActionExp) :
  (∀ e ns m, e ∈ l → quiet_step m (self e ns sub m).2) →
  ∀ f : @Frame TreeNode World,
    advances isSub f (doActionExp_loop this self nodes isSub sub l f).2.
Proof.
  remember (length l) as n eqn:Hn. revert l Hn.
  induction n as [n IH] using lt_wf_ind. intros l Hn Hself f.
  assert (∀ l', length l' < n → (∀ e, e ∈ l' → e ∈ l) →
            ∀ a f1, advances isSub f1
                      ((λ _ : unit, doActionExp_loop this self nodes isSub sub l') a f1).2)
    as Hrest.
  { intros l' Hlen Hsub _ f1. eapply IH; [exact Hlen|reflexivity|].
    intros e ns m He. apply Hself, Hsub, He. }
  destruct l as [|action rest]; [apply advances_refl|].
  simpl in Hn. cbn [doActionExp_loop].
  assert (∀ ns (f1 : @Frame TreeNode World) e, e ∈ action :: rest →
            advances isSub f1 (liftM (self e ns sub) f1).2) as Hcall.
  { intros ns f1 e He. apply advances_liftM, Hself, He. }
  assert (∀ f1 : @Frame TreeNode World,
            advances isSub f1 (liftM (@doActionExp_undefined TreeNode World) f1).2)
    as Hundef.
  { intros f1. apply advances_liftM, quiet_step_refl. }
  destruct action as [name args|elements].
  - case_decide as Hname.
    + unfold bind at 1, gets at 1.
      destruct (waitRelease f) eqn:Hwr; simpl.
      * apply (Hrest rest); [lia|set_solver|exact tt].
      * destruct isSub; simpl.
        -- apply (Hrest rest); [lia|set_solver|exact tt].
        -- apply advances_bind; [by apply advances_acquire|].
           apply Hrest; [lia|set_solver].
    + destruct (js_get (conditionActionRules this) name) as [rule|].
      * apply advances_bind;
          [rewrite rule_partition_frame; apply advances_refl|].
        intros [trueNodes falseNodes] f0.
        destruct rest as [|trueAction [|falseAction rest2]].
        -- apply advances_bind; [apply advances_if_length, Hundef|].
           intros _ f1. apply advances_if_length, Hundef.
        -- apply advances_bind; [apply advances_if_length, Hcall; set_solver|].
           intros _ f1. apply advances_if_length, Hundef.
        -- apply advances_bind; [apply advances_if_length, Hcall; set_solver|].
           intros _ f1.
           apply advances_bind; [apply advances_if_length, Hcall; set_solver|].
           apply Hrest; [simpl in *; lia|set_solver].
      * apply advances_bind; [apply Hcall; set_solver|].
        apply Hrest; [lia|set_solver].
  - apply advances_bind; [apply Hcall; set_solver|].
    apply Hrest; [lia|set_solver].
Qed.

Lemma run_frame_released (isSub : bool) (body : M Frame unit) m :
  advances isSub {| waitRelease := false; machine := m |}
    (body {| waitRelease := false; machine := m |}).2 →
  ∃ t (held : bool),
    trace (run_frame (try_finally (try_catch body rethrow) (release_if_held this)) m).2
      = trace m ++ t ++ (if held then [EvRelease] else [])
    ∧ releases t = 0
    ∧ acquisitions t = Nat.b2n held
    ∧ (if isSub then held = false else True).
Proof.
  intros (t & Ht & Hr & Ha & Hs). unfold run_frame, try_finally.
  rewrite try_catch_rethrow.
  destruct (body _) as [r [held m1]]. simpl in *.
  exists t, held. unfold release_if_held, bind, gets; simpl.
  split; [|split; [exact Hr|split; [lia|]]].
  - destruct held; simpl; rewrite Ht; by rewrite ?app_nil_r, <- ?(assoc_L (++)).
  - destruct isSub; [|done]. destruct held; [|done].
    specialize (Hs eq_refl). simpl in Ha. lia.
Qed.

Lemma doActionExp_released e :
  ∀ nodes options m,
  ∃ t (held : bool),
    trace (doActionExp this e nodes options m).2
      = trace m ++ t ++ (if held then [EvRelease] else [])
    ∧ releases t = 0
    ∧ acquisitions t = Nat.b2n held
    ∧ (if default false (isSubAction options) then held = false else True).
Proof.
  induction e as [name args|elements IH] using ActionExp_nested_ind;
    intros nodes options m.
  - rewrite doActionExp_Leaf. apply run_frame_released.
    apply advances_liftM, doAction_quiet.
  - rewrite doActionExp_Seq. apply run_frame_released.
    unfold doActionExp_at. rewrite drop_0.
    apply doActionExp_loop_advances.
    intros e ns m' He. rewrite Forall_forall in IH.
    destruct (IH e He ns (subOptions_of options) m') as (t & held & Ht & Hr & Ha & Hs).
    simpl in Hs. subst held. exists t. rewrite Ht.
    simpl. by rewrite app_nil_r.
Qed.

(** *** Whole calls, from the index the loop has reached *)

Lemma bind_assoc_at {S A B C} (c : M S A) (k : A → M S B) (h : B → M S C) s :
  bind (bind c k) h s = bind c (λ a, bind (k a) h) s.
Proof. unfold bind. destruct (c s) as [[a|e] s']; reflexivity. Qed.

Lemma bind_ext_at {S A B} (c : M S A) (k1 k2 : A → M S B) s :
  (∀ a s', k1 a s' = k2 a s') → bind c k1 s = bind c k2 s.
Proof. intros Hk. unfold bind. destruct (c s) as [[a|e] s']; [apply Hk|reflexivity]. Qed.

Lemma is_router_false name args :
  name ≠ waitAction_name this →
  is_router this (Leaf name args) = false →
  js_get (conditionActionRules this) name = None.
Proof.
  intros Hname. cbn [is_router]. rewrite decide_False by done.
  intros Hrouter. apply bool_decide_eq_false in Hrouter.
  destruct (js_get (conditionActionRules this) name); [|reflexivity].
  exfalso. apply Hrouter. by eexists.
Qed.

Lemma doActionExp_loop_rule self nodes (isSub : bool) sub name args rule
    trueAction falseAction (rest2 : list ActionExp) :
  name ≠ waitAction_name this →
  js_get (conditionActionRules this) name = Some rule →
  doActionExp_loop this self nodes isSub sub
    (Leaf name args :: trueAction :: falseAction :: rest2) =
    (let* parts := rule_partition rule nodes args in
     let '(trueNodes, falseNodes) := parts in
     if_length trueNodes (liftM (self trueAction trueNodes sub));;
     if_length falseNodes (liftM (self falseAction falseNodes sub));;
     doActionExp_loop this self nodes isSub sub rest2).
Proof.
  intros Hname Hrule. cbn [doActionExp_loop].
  destruct (decide (name = waitAction_name this)); [done|].
  rewrite Hrule. reflexivity.
Qed.

Lemma doActionExp_loop_app self nodes (isSub : bool) sub (pre suf : list ActionExp) :
  scanned this pre = true →
  ∀ f : @Frame TreeNode World,
    doActionExp_loop this self nodes isSub sub (pre ++ suf) f =
      (doActionExp_loop this self nodes isSub sub pre;;
       doActionExp_loop this self nodes isSub sub suf) f.
Proof.
  remember (length pre) as n eqn:Hn. revert pre Hn.
  induction n as [n IH] using lt_wf_ind. intros pre Hn Hscan f.
  destruct pre as [|action rest]; [reflexivity|].
  simpl in Hn. cbn [scanned] in Hscan.
  destruct action as [name args|elements].
  - destruct (decide (name = waitAction_name this)) as [Hname|Hname].
    + cbn [is_router] in Hscan. rewrite decide_True in Hscan by done.
      rewrite <- app_comm_cons. cbn [doActionExp_loop].
      rewrite !decide_True by done. rewrite bind_assoc_at.
      apply bind_ext_at. intros wr f1.
      destruct ((wr : bool) || isSub).
      * apply (IH (length rest)); [lia|reflexivity|exact Hscan].
      * rewrite bind_assoc_at. apply bind_ext_at. intros _ f2.
        apply (IH (length rest)); [lia|reflexivity|exact Hscan].
    + destruct (is_router this (Leaf name args)) eqn:Hrouter.
      * assert (∃ rule, js_get (conditionActionRules this) name = Some rule)
          as [rule Hrule].
        { cbn [is_router] in Hrouter. rewrite decide_False in Hrouter by done.
          apply bool_decide_eq_true in Hrouter. exact Hrouter. }
        destruct rest as [|trueAction [|falseAction rest2]]; [done..|].
        rewrite <- !app_comm_cons.
        rewrite !(doActionExp_loop_rule _ _ _ _ name args rule) by done.
        rewrite bind_assoc_at. apply bind_ext_at. intros [trueNodes falseNodes] f1.
        rewrite bind_assoc_at. apply bind_ext_at. intros _ f2.
        rewrite bind_assoc_at. apply bind_ext_at. intros _ f3.
        apply (IH (length rest2)); [simpl in Hn; lia|reflexivity|exact Hscan].
      * rewrite <- app_comm_cons. cbn [doActionExp_loop].
        rewrite !decide_False by done.
        rewrite (is_router_false _ _ Hname Hrouter).
        rewrite bind_assoc_at. apply bind_ext_at. intros _ f1.
        apply (IH (length rest)); [lia|reflexivity|exact Hscan].
  - cbn [is_router] in Hscan.
    rewrite <- app_comm_cons. cbn [doActionExp_loop].
    rewrite bind_assoc_at. apply bind_ext_at. intros _ f1.
    apply (IH (length rest)); [lia|reflexivity|exact Hscan].
Qed.

Lemma reaches_at nodes options (l : list ActionExp) i m f :
  reaches this nodes options l i m f →
  doActionExp_at this nodes options l 0 {| waitRelease := false; machine := m |} =
    doActionExp_at this nodes options l i f.
Proof.
  intros [Hscan Hrun]. unfold doActionExp_at in *. rewrite drop_0 in *.
  rewrite <- (take_drop i l) at 1. rewrite doActionExp_loop_app by done.
  unfold bind. by rewrite Hrun.
Qed.

Lemma run_frame_end (body : M Frame unit) m :
  run_frame (try_finally (try_catch body rethrow) (release_if_held this)) m =
    doActionExp_end this (body {| waitRelease := false; machine := m |}).
Proof.
  unfold run_frame, doActionExp_end, try_finally, try_catch.
  by destruct (body _) as [[[]|e] f'].
Qed.

Lemma doActionExp_reached nodes options (l : list ActionExp) i m f :
  reaches this nodes options l i m f →
  doActionExp this (Seq l) nodes options m =
    doActionExp_end this (doActionExp_at this nodes options l i f).
Proof.
  intros Hreach. rewrite doActionExp_Seq, run_frame_end.
  by rewrite (reaches_at nodes options l i m f Hreach).
Qed.

Lemma doActionExp_end_eq r (f : @Frame TreeNode World) :
  doActionExp_end this (r, f) = (r, machine (release_if_held this f).2).
Proof.
  unfold doActionExp_end, try_finally, try_catch, release_if_held, bind, gets.
  cbn [snd]. destruct r as [[]|e]; cbn [rethrow throw];
    destruct (waitRelease f); reflexivity.
Qed.

Lemma doActionExp_end_trace (out : Result unit * @Frame TreeNode World) :
  trace (doActionExp_end this out).2 =
    trace (machine out.2) ++ (if waitRelease out.2 then [EvRelease] else []).
Proof.
  destruct out as [r [held mach]]. rewrite doActionExp_end_eq.
  destruct held; simpl; by rewrite ?app_nil_r.
Qed.

(** C4: when the loop of a call on [Seq l] reaches a condition-router leaf
    at index [i] that has two elements after it, the whole call is: the
    nodes are split by the rule's filter, evaluated on the source as it is
    then; the element at [i + 1] runs on the nodes that pass and the element
    at [i + 2] on the nodes that fail, each only if its group is non-empty
    and each as a sub-action; the loop goes on at [i + 3]; and the call ends
    through its [catch] and [finally] blocks. *)
Theorem doActionExp_router nodes options (l : list ActionExp) i name args rule
    trueAction falseAction m f :
  l !! i = Some (Leaf name args) →
  name ≠ waitAction_name this →
  conditionActionRules this !! name = Some rule →
  l !! (i + 1) = Some trueAction →
  l !! (i + 2) = Some falseAction →
  reaches this nodes options l i m f →
  let passes := λ node, rule_filter rule (source (machine f)) node args in
  let trueNodes := (partition nodes passes).1 in
  let falseNodes := (partition nodes passes).2 in
  let sub := subOptions_of options in
  (∀ node, node ∈ trueNodes ↔ node ∈ nodes ∧ passes node = true)
  ∧ (∀ node, node ∈ falseNodes ↔ node ∈ nodes ∧ passes node = false)
  ∧ isSubAction sub = Some true
  ∧ doActionExp this (Seq l) nodes options m =
      doActionExp_end this
        (((match trueNodes with
           | [] => ret tt
           | _ :: _ => liftM (doActionExp this trueAction trueNodes sub)
           end);;
          (match falseNodes with
           | [] => ret tt
           | _ :: _ => liftM (doActionExp this falseAction falseNodes sub)
           end);;
          doActionExp_at this nodes options l (i + 3)) f).
Proof.
  intros Hi Hname Hrule Ht Hf Hreach passes trueNodes falseNodes sub.
  split; [intros node; apply elem_of_partition_true|].
  split; [intros node; apply elem_of_partition_false|].
  split; [reflexivity|].
  rewrite (doActionExp_reached nodes options l i m f Hreach).
  rewrite (doActionExp_at_router nodes options l i name args rule f Hi Hname Hrule).
  rewrite Ht, Hf. reflexivity.
Qed.

(** C10: when the loop of a call on [Seq l] reaches a condition-router leaf
    at index [i] that is one of the last two elements, the whole call ends
    as follows, the mutex being released if this call holds it.  With both
    branches missing it completes normally if both groups of nodes are
    empty and throws a [TypeError] (raised by reading [name] of
    [undefined]) otherwise.  With only the false-branch missing, the
    true-branch runs first on a non-empty group; if it throws, the call
    throws that error; otherwise the call throws the [TypeError] if the
    group that fails the filter is non-empty, and completes normally if it
    is empty. *)
Theorem doActionExp_router_missing_branch nodes options (l : list ActionExp) i
    name args rule m f :
  l !! i = Some (Leaf name args) →
  name ≠ waitAction_name this →
  conditionActionRules this !! name = Some rule →
  l !! (i + 2) = None →
  reaches this nodes options l i m f →
  let passes := λ node, rule_filter rule (source (machine f)) node args in
  let trueNodes := (partition nodes passes).1 in
  let falseNodes := (partition nodes passes).2 in
  let sub := subOptions_of options in
  let typeError := TypeError "Cannot read property 'name' of undefined" in
  doActionExp this (Seq l) nodes options m =
    doActionExp_end this
      match l !! (i + 1) with
      | None =>
          match trueNodes, falseNodes with
          | [], [] => (Ok tt, f)
          | _, _ => (Throw typeError, f)
          end
      | Some trueAction =>
          let first :=
            match trueNodes with
            | [] => (Ok tt, f)
            | _ :: _ => liftM (doActionExp this trueAction trueNodes sub) f
            end in
          match first, falseNodes with
          | (Throw e, f1), _ => (Throw e, f1)
          | (Ok _, f1), [] => (Ok tt, f1)
          | (Ok _, f1), _ :: _ => (Throw typeError, f1)
          end
      end.
Proof.
  intros Hi Hname Hrule Hf Hreach passes trueNodes falseNodes sub typeError.
  rewrite (doActionExp_reached nodes options l i m f Hreach).
  rewrite (doActionExp_at_router nodes options l i name args rule f Hi Hname Hrule).
  rewrite Hf. fold passes trueNodes falseNodes sub.
  rewrite doActionExp_at_end
    by (apply lookup_ge_None; apply lookup_ge_None in Hf; lia).
  rewrite bind_bind_ret_tt. f_equal.
  clearbody trueNodes falseNodes. clear passes. destruct f as [held mach].
  destruct (l !! (i + 1)) as [trueAction|]; cbn [doActionExp_opt].
  - unfold bind.
    destruct trueNodes as [|tn trueNodes']; cbn [if_length].
    + destruct falseNodes; reflexivity.
    + destruct (liftM (doActionExp this trueAction (tn :: trueNodes') sub) _)
        as [[[]|e] [held1 mach1]]; destruct falseNodes; reflexivity.
  - destruct trueNodes, falseNodes; reflexivity.
Qed.

(** C5: every call of [doActionExp], whether it completes or throws,
    acquires the mutex at most once, never as a sub-action, and releases it
    exactly as often as it acquired it, as the last thing the call does.
    And when the loop of a call on [Seq l] reaches a synchronization-marker
    leaf at index [i], the call goes on at [i + 1] unchanged if it already
    holds a release function or is a sub-action, and otherwise acquires the
    mutex first and holds the release function from then on; in that case
    the trace of the call from that point is the acquisition, then events
    that neither acquire nor release, then the release. *)
Theorem doActionExp_barrier :
  (∀ e nodes options m,
     ∃ t (held : bool),
       trace (doActionExp this e nodes options m).2
         = trace m ++ t ++ (if held then [EvRelease] else [])
       ∧ releases t = 0
       ∧ acquisitions t = Nat.b2n held
       ∧ (if default false (isSubAction options) then held = false else True))
  ∧ (∀ (l : list ActionExp) i args nodes options m f,
       l !! i = Some (Leaf (waitAction_name this) args) →
       reaches this nodes options l i m f →
       let acquired :=
         {| waitRelease := true;
            machine := {| source := on_world (mutex_acquire this) (source (machine f));
                          trace := trace (machine f) ++ [EvAcquire] |} |} in
       doActionExp this (Seq l) nodes options m =
         doActionExp_end this
           (doActionExp_at this nodes options l (S i)
              (if waitRelease f || default false (isSubAction options)
               then f else acquired))
       ∧ (waitRelease f || default false (isSubAction options) = false →
          ∃ t, trace (doActionExp this (Seq l) nodes options m).2
                 = trace (machine f) ++ [EvAcquire] ++ t ++ [EvRelease]
               ∧ acquisitions t = 0 ∧ releases t = 0)).
Proof.
  split; [intros e; apply doActionExp_released|].
  intros l i args nodes options m f Hi Hreach acquired.
  assert (doActionExp this (Seq l) nodes options m =
            doActionExp_end this
              (doActionExp_at this nodes options l (S i)
                 (if waitRelease f || default false (isSubAction options)
                  then f else acquired))) as Hrun.
  { rewrite (doActionExp_reached nodes options l i m f Hreach).
    rewrite (doActionExp_at_marker nodes options l i args f Hi).
    by destruct (waitRelease f || default false (isSubAction options)). }
  split; [exact Hrun|].
  intros Hfree. rewrite Hrun, Hfree, doActionExp_end_trace.
  destruct (doActionExp_loop_advances (doActionExp this) nodes
              (default false (isSubAction options)) (subOptions_of options)
              (drop (S i) l)) with (f := acquired)
    as (t & Ht & Hr & Ha & _).
  { intros e ns m' _.
    destruct (doActionExp_released e ns (subOptions_of options) m')
      as (t & held & Ht & Hr & Ha & Hs).
    simpl in Hs. subst held. exists t. rewrite Ht. simpl. by rewrite app_nil_r. }
  fold (doActionExp_at this nodes options l (S i)) in Ht, Ha.
  exists t. simpl in Ha.
  destruct (waitRelease (doActionExp_at this nodes options l (S i) acquired).2);
    simpl in Ha; [|lia].
  rewrite Ht. cbn [machine trace acquired]. rewrite <- !(assoc_L (++)).
  split; [reflexivity|]. split; [lia|exact Hr].
Qed.

End Properties.

(** ** The statements on the concrete explorer *)

Section Instances.
Import Example.

Example run_marker_then_failure :
  doActionExp explorer (Seq [Leaf "wait" []; Leaf "broken" []]) [1] noExpOptions (start [])
  = (Throw (Thrown "EACCES"),
     {| source := {| selectedNodes := []; world := 3 |};
        trace := [EvAcquire;
                  EvCallback "broken"
                    {| cb_nodes := [Some 1]; cb_args := []; cb_mode := "n" |};
                  EvLoad; EvRelease] |}).
Proof. vm_compute. reflexivity. Qed.

Example run_router_last :
  doActionExp explorer (Seq [Leaf "open" []; Leaf "even?" []]) [1] noExpOptions (start [])
  = (Throw (TypeError "Cannot read property 'name' of undefined"),
     {| source := {| selectedNodes := []; world := 0 |};
        trace := [EvCallback "open"
                    {| cb_nodes := [Some 1]; cb_args := []; cb_mode := "n" |}] |}).
Proof. vm_compute. reflexivity. Qed.

Example run_router_without_false_branch :
  doActionExp explorer (Seq [Leaf "even?" []; Leaf "mark" []]) [2; 4] noExpOptions (start [7])
  = (Ok tt,
     {| source := {| selectedNodes := [7]; world := 1 |};
        trace := [EvCallback "mark"
                    {| cb_nodes := [Some 2; Some 4; Some 7]; cb_args := []; cb_mode := "n" |};
                  EvRender] |}).
Proof. vm_compute. reflexivity. Qed.

Lemma registeredAction_local_first_witness :
  registeredAction explorer "open" = Some (Own open_local)
  ∧ registeredActions explorer !! "open" = Some open_local.
Proof.
  apply (registeredAction_local_first explorer "open" open_local open_global);
    vm_compute; reflexivity.
Defined.

(** C8: ["constructor"] is registered in neither tier, and [doAction] does
    not return silently for it: the lookup finds the member every object
    inherits, the guard [if (!action)] lets it pass, and destructuring
    [action.options] throws a [TypeError]. *)
Lemma doAction_unregistered_throws :
  actions explorer !! "constructor" = None
  ∧ global_actions explorer !! "constructor" = None
  ∧ registeredAction explorer "constructor" = Some (Inherited "constructor")
  ∧ doAction explorer "constructor" (NodeArray [1; 2]) (Some ["x"]) (Some "v") (start [3])
    = (Throw (TypeError "Cannot destructure 'action.options' as it is undefined"),
       start [3]).
Proof. repeat split; vm_compute; reflexivity. Qed.

Lemma doAction_select_witness :
  let out := doAction explorer "delete" (NodeArray [2; 1; 2]) None None (start [1; 3]) in
  out.1 = Ok tt
  ∧ selectedNodes (source out.2) = []
  ∧ trace out.2 =
      [EvRequestRenderNodes [2; 1; 3];
       EvCallback "delete"
         {| cb_nodes := [Some 2; Some 1; Some 3]; cb_args := []; cb_mode := "n" |};
       EvLoad].
Proof.
  destruct (doAction_select explorer "delete" (NodeArray [2; 1; 2]) None None
              delete_selected (start [1; 3]))
    as (_ & _ & Hcompletion & _ & Htrace & Hselection);
    [vm_compute; reflexivity | reflexivity |].
  split; [exact Hcompletion|]. split; [|exact Htrace].
  apply Hselection. reflexivity.
Defined.

Lemma doAction_keep_witness :
  let out := doAction explorer "mark" (NodeArray [2; 4]) None None (start [7; 2]) in
  out.1 = Ok tt
  ∧ selectedNodes (source out.2) = [7; 2]
  ∧ trace out.2 =
      [EvCallback "mark"
         {| cb_nodes := [Some 2; Some 4; Some 7]; cb_args := []; cb_mode := "n" |};
       EvRender].
Proof.
  destruct (doAction_keep explorer "mark" (NodeArray [2; 4]) None None mark (start [7; 2]))
    as (_ & _ & Hcompletion & Hselection & Htrace & _);
    [vm_compute; reflexivity | reflexivity |].
  split; [exact Hcompletion|]. split; [exact Hselection|exact Htrace].
Defined.

Lemma doAction_keep_selection_witness :
  let out := doAction explorer "mark" (NodeArray [1]) None None (start []) in
  selectedNodes (source out.2) = []
  ∧ out.1 = Ok tt
  ∧ trace out.2 =
      [EvCallback "mark" {| cb_nodes := [Some 1]; cb_args := []; cb_mode := "n" |};
       EvRender].
Proof.
  destruct (doAction_keep_selection explorer "mark" (NodeArray [1]) None None mark (start []))
    as (Hselection & Hcompletion & Htrace); [vm_compute; reflexivity | reflexivity |].
  split; [apply Hselection; reflexivity|]. split; [exact Hcompletion|exact Htrace].
Defined.

(** C2 as stated fails: ["mark"] has [select: 'keep'] and its callback
    does not touch the selection; invoked on node [1] with nothing selected,
    it leaves the selection empty, while the union is [[1]]. *)
Lemma doAction_keep_selection_counterexample :
  let m := start [] in
  let out := doAction explorer "mark" (NodeArray [1]) None None m in
  registeredAction explorer "mark" = Some (Own mark)
  ∧ select (options mark) = Some SelectKeep
  ∧ ¬ (∀ x, x ∈ selectedNodes (source out.2)
            ↔ x ∈ uniq (finalNodes_of (NodeArray [1]) ++ selectedNodes (source m))).
Proof.
  split; [vm_compute; reflexivity|]. split; [reflexivity|].
  intros Hsame. destruct (Hsame 1) as [_ Hin].
  assert (1 ∈ @nil nat) as Hnil by (apply Hin; vm_compute; constructor).
  inversion Hnil.
Qed.

Lemma doAction_replace_single_witness :
  let out := doAction explorer "open" (NodeArray [5; 6]) (Some ["tab"]) None (start [7]) in
  out.1 = Ok tt
  ∧ selectedNodes (source out.2) = [7]
  ∧ trace out.2 =
      [EvCallback "open"
         {| cb_nodes := [Some 5]; cb_args := ["tab"]; cb_mode := "n" |}].
Proof.
  destruct (doAction_replace_single explorer "open" (NodeArray [5; 6]) (Some ["tab"]) None
              open_local (start [7]) 5 [6])
    as (Hcompletion & _ & Htrace & Hselection);
    [vm_compute; reflexivity | left; reflexivity | reflexivity |].
  split; [exact Hcompletion|]. split; [|exact Htrace].
  apply Hselection. reflexivity.
Defined.

Lemma doAction_post_effects_witness :
  ∃ arg m0 before,
    trace m0 = trace (start [4]) ++ before
    ∧ (EvLoad ∉ before) ∧ (EvRender ∉ before)
    ∧ doAction explorer "broken" (OneNode 9) None (Some "v") (start [4]) =
        ((callback broken arg (source m0)).1,
         {| source := on_world (source_load explorer) (callback broken arg (source m0)).2;
            trace := (trace m0 ++ [EvCallback "broken" arg]) ++ [EvLoad] |}).
Proof.
  apply (doAction_post_effects explorer "broken" (OneNode 9) None (Some "v") broken (start [4])).
  vm_compute; reflexivity.
Defined.

Lemma doActionExp_router_witness :
  let l := [Leaf "open" []; Leaf "even?" []; Leaf "open" []; Leaf "mark" [];
            Leaf "delete" []] in
  let sub := subOptions_of noExpOptions in
  let f := {| waitRelease := false;
              machine :=
                {| source := {| selectedNodes := []; world := 0 |};
                   trace := [EvCallback "open"
                               {| cb_nodes := [Some 1]; cb_args := [];
                                  cb_mode := "n" |}] |} |} in
  doActionExp explorer (Seq l) [1; 2; 3] noExpOptions (start []) =
    doActionExp_end explorer
      ((liftM (doActionExp explorer (Leaf "open" []) [2] sub);;
        liftM (doActionExp explorer (Leaf "mark" []) [1; 3] sub);;
        doActionExp_at explorer [1; 2; 3] noExpOptions l 4) f).
Proof.
  intros l sub f.
  destruct (doActionExp_router explorer [1; 2; 3] noExpOptions l 1 "even?" []
              is_even (Leaf "open" []) (Leaf "mark" []) (start []) f)
    as (_ & _ & _ & Hrun);
    [reflexivity | discriminate | vm_compute; reflexivity
    | reflexivity | reflexivity | split; vm_compute; reflexivity |].
  exact Hrun.
Defined.

(** C4 as stated fails: the leaf ["even?"] at index 1 is a condition router
    followed by two elements, but the loop never stands at it: it is the
    true-branch of the router at index 0, so it is invoked as an action by
    name (none is registered), and the two elements after it do not run as
    its branches: ["open"] runs on node 1, which fails the predicate, as the
    false-branch of the router at index 0, and ["mark"] runs on all the
    nodes, node 2 included, which passes it. *)
Lemma doActionExp_router_counterexample :
  let l := [Leaf "even?" []; Leaf "even?" []; Leaf "open" []; Leaf "mark" []] in
  let m := start [] in
  let out := doActionExp explorer (Seq l) [1; 2] noExpOptions m in
  l !! 1 = Some (Leaf "even?" [])
  ∧ conditionActionRules explorer !! "even?" = Some is_even
  ∧ l !! 2 = Some (Leaf "open" [])
  ∧ l !! 3 = Some (Leaf "mark" [])
  ∧ rule_filter is_even (source m) 1 [] = false
  ∧ rule_filter is_even (source m) 2 [] = true
  ∧ out.1 = Ok tt
  ∧ trace out.2 =
      [EvCallback "open" {| cb_nodes := [Some 1]; cb_args := []; cb_mode := "n" |};
       EvCallback "mark"
         {| cb_nodes := [Some 1; Some 2]; cb_args := []; cb_mode := "n" |};
       EvRender].
Proof. repeat split; vm_compute; reflexivity. Qed.

Lemma doActionExp_router_missing_branch_witness :
  let l := [Leaf "even?" []; Leaf "mark" []] in
  doActionExp explorer (Seq l) [2; 1] noExpOptions (start [])
  = (Throw (TypeError "Cannot read property 'name' of undefined"),
     {| source := {| selectedNodes := []; world := 1 |};
        trace := [EvCallback "mark"
                    {| cb_nodes := [Some 2]; cb_args := []; cb_mode := "n" |};
                  EvRender] |}).
Proof.
  intros l.
  exact (doActionExp_router_missing_branch explorer [2; 1] noExpOptions l 0 "even?" []
           is_even (start []) fresh
           eq_refl
           ltac:(discriminate)
           ltac:(vm_compute; reflexivity)
           eq_refl
           ltac:(split; vm_compute; reflexivity)).
Defined.

(** C10 as stated fails: the router is the first of two elements and node 1
    goes to the missing false-branch, but the run does not fail with a type
    error: the true-branch runs first, on node 2, and its error ends the
    run. *)
Lemma doActionExp_router_missing_branch_counterexample :
  let l := [Leaf "even?" []; Leaf "broken" []] in
  let out := doActionExp explorer (Seq l) [1; 2] noExpOptions (start []) in
  l !! 0 = Some (Leaf "even?" [])
  ∧ conditionActionRules explorer !! "even?" = Some is_even
  ∧ l !! 2 = None
  ∧ (partition [1; 2] (λ node, rule_filter is_even (source (start [])) node [])).2 = [1]
  ∧ out.1 = Throw (Thrown "EACCES")
  ∧ ∀ msg, out.1 ≠ Throw (TypeError msg).
Proof.
  repeat split; try (vm_compute; reflexivity).
  intros msg. vm_compute. discriminate.
Qed.

Lemma doActionExp_barrier_witness :
  let l := [Leaf "wait" []; Leaf "broken" []] in
  let out := doActionExp explorer (Seq l) [1] noExpOptions (start []) in
  (∃ t (held : bool),
     trace out.2 = trace (start []) ++ t ++ (if held then [EvRelease] else [])
     ∧ releases t = 0 ∧ acquisitions t = Nat.b2n held)
  ∧ out = doActionExp_end explorer
            (doActionExp_at explorer [1] noExpOptions l 1
               {| waitRelease := true;
                  machine := {| source := {| selectedNodes := []; world := 1 |};
                                trace := [EvAcquire] |} |})
  ∧ ∃ t, trace out.2 = [EvAcquire] ++ t ++ [EvRelease]
         ∧ acquisitions t = 0 ∧ releases t = 0.
Proof.
  intros l out. destruct (doActionExp_barrier explorer) as [Hcall Hmarker].
  split.
  - destruct (Hcall (Seq l) [1] noExpOptions (start []))
      as (t & held & Ht & Hr & Ha & _).
    exists t, held. split; [exact Ht|]. split; [exact Hr|exact Ha].
  - destruct (Hmarker l 0 [] [1] noExpOptions (start []) fresh) as [Hrun Htrace];
      [reflexivity | split; vm_compute; reflexivity |].
    split; [exact Hrun|]. apply Htrace. reflexivity.
Defined.

(** C5 as stated fails: the call is not a sub-action and holds no release
    function, but the marker leaf at index 1 does not acquire the mutex:
    the loop never stands at it, it is the true-branch of the router at
    index 0 and is invoked as an action by name.  Where an action is
    registered under that name its callback runs; where none is, nothing
    happens. *)
Lemma doActionExp_barrier_counterexample :
  let l := [Leaf "even?" []; Leaf "wait" []; Leaf "open" []] in
  let out := doActionExp explorer_wait (Seq l) [2] noExpOptions (start []) in
  l !! 1 = Some (Leaf (waitAction_name explorer_wait) [])
  ∧ default false (isSubAction noExpOptions) = false
  ∧ out.1 = Ok tt
  ∧ trace out.2 =
      [EvCallback "wait" {| cb_nodes := [Some 2]; cb_args := []; cb_mode := "n" |}]
  ∧ acquisitions (trace out.2) = 0
  ∧ doActionExp explorer (Seq l) [2] noExpOptions (start []) = (Ok tt, start []).
Proof. repeat split; vm_compute; reflexivity. Qed.
End Instances.

(** ** Further properties of the invoker and the interpreter *)

Section More_properties.
Context {TreeNode : Type} `{EqDecision TreeNode} {World : Type}.
Variable this : @ActionSource TreeNode World.
Implicit Types (m : @Machine TreeNode World) (action : @Action TreeNode World).
Implicit Types (name : string) (mode : option MappingMode).
Implicit Types (nodes : list TreeNode) (options : ExpOptions).

(** X1: resolving a name and looking it up among the entries of the
    merged mapping agree: an action that is resolved is the listed one,
    and for a name that [Object.prototype] does not have, an action is
    resolved exactly when it is listed. *)
Theorem registeredAction_registeredActions name :
  (∀ action, registeredAction this name = Some (Own action) →
             registeredActions this !! name = Some action)
  ∧ (name ∉ Object_prototype_names →
     registeredAction this name = Own <$> (registeredActions this !! name)).
Proof.
  unfold registeredAction, registeredActions, js_get. split.
  - intros action. destruct (actions this !! name) as [a|] eqn:Hl.
    + intros [= <-]. by apply lookup_union_Some_l.
    + case_decide; [done|]. rewrite lookup_union_r by done.
      destruct (global_actions this !! name); [|done]. by intros [= <-].
  - intros Hname. destruct (actions this !! name) as [a|] eqn:Hl.
    + by rewrite (lookup_union_Some_l _ _ _ _ Hl).
    + rewrite lookup_union_r by done. simpl.
      destruct (decide (name ∈ Object_prototype_names)); [done|].
      by destruct (global_actions this !! name).
Qed.

(** X16: for a name that is an entry of neither registry and that
    [Object.prototype] does not have, [doAction] completes at once: no
    error, and the selection, the rest of the state and the trace are
    untouched (no callback, no reload, no render). *)
Theorem doAction_unresolved name (nodes : NodesArg) (args : option (list string))
    mode m :
  actions this !! name = None →
  global_actions this !! name = None →
  name ∉ Object_prototype_names →
  doAction this name nodes args mode m = (Ok tt, m).
Proof.
  intros Hl Hg Hname. apply doAction_no_member.
  unfold registeredAction. by rewrite !(proj2 (js_get_None _ _)).
Qed.

(** X17: for a name of [Object.prototype] that is not an entry of the local
    registry, [doAction] throws a [TypeError] before anything else happens,
    whatever the global registry holds under that name: the state and the
    trace are untouched. *)
Theorem doAction_prototype_name name (nodes : NodesArg)
    (args : option (list string)) mode m :
  name ∈ Object_prototype_names →
  actions this !! name = None →
  ∃ msg, doAction this name nodes args mode m = (Throw (TypeError msg), m).
Proof.
  intros Hname Hl. apply doAction_inherited_member.
  unfold registeredAction. by rewrite (js_get_inherited _ _ Hl Hname).
Qed.

(** X2: with [select === 'visual'] the callback receives the supplied
    nodes as they are (duplicates included, the selection not merged in) and
    runs on the source as [doAction] found it; the invoker requests no
    re-render of nodes. *)
Theorem doAction_visual name (nodes : NodesArg) (args : option (list string)) mode
    action m :
  registeredAction this name = Some (Own action) →
  select (options action) = Some SelectVisual →
  let arg := {| cb_nodes := Some <$> finalNodes_of nodes;
                cb_args := default [] args; cb_mode := default "n" mode |} in
  let out := doAction this name nodes args mode m in
  out.1 = (callback action arg (source m)).1
  ∧ selectedNodes (source out.2) = selectedNodes (callback action arg (source m)).2
  ∧ trace out.2 = trace m ++ [EvCallback name arg] ++ post_events action.
Proof.
  intros Hres Hsel arg out.
  exact (doAction_visual_settles this name nodes args mode action m Hres Hsel).
Qed.

(** X3: with [select] absent or [false] and no node supplied, the callback
    is still called, with the one-element list [[undefined]]. *)
Theorem doAction_replace_single_empty name (nodes : NodesArg)
    (args : option (list string)) mode action m :
  registeredAction this name = Some (Own action) →
  select (options action) = None ∨ select (options action) = Some SelectFalse →
  finalNodes_of nodes = [] →
  let arg := {| cb_nodes := [None];
                cb_args := default [] args; cb_mode := default "n" mode |} in
  let out := doAction this name nodes args mode m in
  out.1 = (callback action arg (source m)).1
  ∧ trace out.2 = trace m ++ [EvCallback name arg] ++ post_events action.
Proof.
  intros Hres Hsel Hnodes arg out.
  assert (default SelectFalse (select (options action)) = SelectFalse) as Hdef
    by (destruct Hsel as [-> | ->]; reflexivity).
  destruct (doAction_single_settles this name nodes args mode action m Hres Hdef)
    as (Hr & _ & Ht).
  rewrite Hnodes in Hr, Ht. split; [exact Hr|exact Ht].
Qed.

(** *** Whole runs *)

Lemma run_frame_ext (body1 body2 : M (@Frame TreeNode World) unit) m :
  body1 {| waitRelease := false; machine := m |}
  = body2 {| waitRelease := false; machine := m |} →
  run_frame (try_finally (try_catch body1 rethrow) (release_if_held this)) m
  = run_frame (try_finally (try_catch body2 rethrow) (release_if_held this)) m.
Proof.
  intros Hbody. unfold run_frame, try_finally.
  rewrite !try_catch_rethrow, Hbody. reflexivity.
Qed.

Lemma run_frame_bind_liftM (c : M (@Machine TreeNode World) unit)
    (body : M (@Frame TreeNode World) unit) m :
  run_frame (try_finally (try_catch (liftM c;; body) rethrow) (release_if_held this)) m
  = (c;; run_frame (try_finally (try_catch body rethrow) (release_if_held this))) m.
Proof.
  unfold run_frame, try_finally. rewrite try_catch_rethrow.
  unfold bind, liftM; simpl.
  destruct (c m) as [[[]|e] m1]; simpl; [|reflexivity].
  rewrite try_catch_rethrow. reflexivity.
Qed.

Lemma run_frame_if_length (ns : list TreeNode) (c : M (@Machine TreeNode World) unit)
    (body : M (@Frame TreeNode World) unit) m :
  run_frame
    (try_finally (try_catch (if_length ns (liftM c);; body) rethrow)
       (release_if_held this)) m
  = (if_length ns c;;
     run_frame (try_finally (try_catch body rethrow) (release_if_held this))) m.
Proof.
  destruct ns as [|n ns]; [|apply run_frame_bind_liftM].
  apply run_frame_ext. reflexivity.
Qed.

Lemma doActionExp_Leaf_run name (args : list string) nodes options m :
  doActionExp this (Leaf name args) nodes options m
  = doAction this name (NodeArray nodes) (Some args)
      (Some (default "n" (mode options))) m.
Proof.
  rewrite doActionExp_Leaf. unfold run_frame, try_finally.
  rewrite try_catch_rethrow. unfold liftM; simpl.
  destruct (doAction _ _ _ _ _ m) as [r m1]. reflexivity.
Qed.

(** X4: running a single leaf is invoking the action it names on the same
    nodes, with the leaf's [args] and the mode of the run (['n'] when none is
    given); the mutex is not touched. *)
Theorem doActionExp_Leaf_is_doAction name (args : list string) nodes options m :
  doActionExp this (Leaf name args) nodes options m
  = doAction this name (NodeArray nodes) (Some args)
      (Some (default "n" (mode options))) m.
Proof. apply doActionExp_Leaf_run. Qed.

Lemma doActionExp_at_plain nodes options (l : list ActionExp) i x
    (f : @Frame TreeNode World) :
  l !! i = Some x →
  match x with
  | Leaf name _ =>
      name ≠ waitAction_name this ∧ js_get (conditionActionRules this) name = None
  | Seq _ => True
  end →
  doActionExp_at this nodes options l i f =
    (liftM (doActionExp this x nodes (subOptions_of options));;
     doActionExp_at this nodes options l (S i)) f.
Proof.
  intros Hi Hx. unfold doActionExp_at. rewrite (drop_S _ _ _ Hi).
  cbn [doActionExp_loop]. destruct x as [name args|elements]; [|reflexivity].
  destruct Hx as [Hname Hrule].
  rewrite decide_False by done. rewrite Hrule. reflexivity.
Qed.

Lemma doActionExp_Seq_cons_run x (rest : list ActionExp) nodes options m :
  match x with
  | Leaf name _ =>
      name ≠ waitAction_name this ∧ js_get (conditionActionRules this) name = None
  | Seq _ => True
  end →
  doActionExp this (Seq (x :: rest)) nodes options m
  = (doActionExp this x nodes (subOptions_of options);;
     doActionExp this (Seq rest) nodes options) m.
Proof.
  intros Hx. rewrite doActionExp_Seq.
  erewrite run_frame_ext
    by (apply (doActionExp_at_plain nodes options (x :: rest) 0 x); [reflexivity|exact Hx]).
  rewrite run_frame_bind_liftM. reflexivity.
Qed.

(** X5: a sequence whose first element is a nested sequence, or a leaf that
    is not the marker and for whose name the table of condition rules has
    nothing, of its own or inherited, runs that element as a
    sub-action on the same nodes and then, only if it completed, the rest of
    the sequence as the run it would be on its own. *)
Theorem doActionExp_Seq_cons x (rest : list ActionExp) nodes options m :
  match x with
  | Leaf name _ =>
      name ≠ waitAction_name this ∧ js_get (conditionActionRules this) name = None
  | Seq _ => True
  end →
  doActionExp this (Seq (x :: rest)) nodes options m
  = (doActionExp this x nodes (subOptions_of options);;
     doActionExp this (Seq rest) nodes options) m.
Proof. apply doActionExp_Seq_cons_run. Qed.

(** X6: a sequence of leaves none of which is the marker or a name for
    which the table of condition rules has something, of its own or
    inherited, invokes the named actions from left to right, each on the same
    nodes and with the mode of the run, and stops at the first one that
    throws. *)
Theorem doActionExp_plain_sequence (calls : list (string * list string))
    nodes options m :
  Forall (λ call, call.1 ≠ waitAction_name this
                  ∧ js_get (conditionActionRules this) call.1 = None) calls →
  doActionExp this (Seq ((λ call, Leaf call.1 call.2) <$> calls)) nodes options m
  = foldr (λ call then_,
             doAction this call.1 (NodeArray nodes) (Some call.2)
               (Some (default "n" (mode options)));;
             then_)
      (ret tt) calls m.
Proof.
  intros Hplain. revert m.
  induction Hplain as [|[name args] calls [Hname Hrule] _ IH]; intros m.
  - reflexivity.
  - cbn [fmap list_fmap foldr fst snd].
    rewrite doActionExp_Seq_cons_run by (split; assumption).
    unfold bind at 1 2. rewrite doActionExp_Leaf_run.
    cbn [mode subOptions_of default option_rect from_option].
    destruct (doAction _ _ _ _ _ m) as [[[]|e] m1]; [apply IH|reflexivity].
Qed.

(** X7: a sequence that starts with a condition rule followed by two
    elements splits the nodes by the rule's filter, evaluated on the source
    as the run finds it, runs the first of the two on the nodes that pass and
    the second on the nodes that fail, skipping an empty group, and then the
    rest of the sequence as the run it would be on its own. *)
Theorem doActionExp_Seq_router name (args : list string) rule trueAction falseAction
    (rest : list ActionExp) nodes options m :
  name ≠ waitAction_name this →
  conditionActionRules this !! name = Some rule →
  let passes := λ node, rule_filter rule (source m) node args in
  let trueNodes := (partition nodes passes).1 in
  let falseNodes := (partition nodes passes).2 in
  let sub := subOptions_of options in
  doActionExp this (Seq (Leaf name args :: trueAction :: falseAction :: rest))
    nodes options m
  = (if_length trueNodes (doActionExp this trueAction trueNodes sub);;
     if_length falseNodes (doActionExp this falseAction falseNodes sub);;
     doActionExp this (Seq rest) nodes options) m.
Proof.
  intros Hname Hrule passes trueNodes falseNodes sub. rewrite doActionExp_Seq.
  erewrite run_frame_ext
    by (apply (doActionExp_at_router this nodes options _ 0 name args rule);
        [reflexivity|exact Hname|exact Hrule]).
  cbn [machine source lookup list_lookup doActionExp_opt Nat.add].
  fold passes trueNodes falseNodes sub.
  rewrite run_frame_if_length. unfold bind at 1 3.
  destruct (if_length trueNodes _ m) as [[[]|e] m1]; [|reflexivity].
  rewrite run_frame_if_length. reflexivity.
Qed.

(** *** A sequence that starts with the marker *)

Lemma liftM_flag (c : M (@Machine TreeNode World) unit) (held : bool) m :
  liftM c {| waitRelease := held; machine := m |}
  = ((c m).1, {| waitRelease := held; machine := (c m).2 |}).
Proof. unfold liftM; simpl. by destruct (c m). Qed.

Lemma if_length_liftM_flag (ns : list TreeNode) (c : M (@Machine TreeNode World) unit)
    (held : bool) m :
  if_length ns (liftM c) {| waitRelease := held; machine := m |}
  = ((if_length ns c m).1,
     {| waitRelease := held; machine := (if_length ns c m).2 |}).
Proof. destruct ns; [reflexivity|apply liftM_flag]. Qed.

Lemma rule_partition_flag rule nodes (args : list string) (held : bool) m :
  rule_partition rule nodes args {| waitRelease := held; machine := m |}
  = ((rule_partition rule nodes args {| waitRelease := false; machine := m |}).1,
     {| waitRelease := held; machine := m |}).
Proof. destruct rule as [rule|inherited]; [reflexivity|]. by destruct nodes. Qed.

(** With the release function held, the loop of a top-level call does to the
    machine what the loop of a sub-action does. *)
Lemma doActionExp_loop_held self nodes sub (l : list ActionExp) m :
  doActionExp_loop this self nodes false sub l {| waitRelease := true; machine := m |}
  = (let out := doActionExp_loop this self nodes true sub l
                  {| waitRelease := false; machine := m |} in
     (out.1, {| waitRelease := true; machine := machine out.2 |}))
  ∧ waitRelease
      (doActionExp_loop this self nodes true sub l
         {| waitRelease := false; machine := m |}).2 = false.
Proof.
  remember (length l) as n eqn:Hn. revert l Hn m.
  induction n as [n IH] using lt_wf_ind. intros l Hn m.
  destruct l as [|action rest]; [by split|]. simpl in Hn.
  assert (∀ (c : M (@Machine TreeNode World) unit) l',
            length l' < n →
            (liftM c;; doActionExp_loop this self nodes false sub l')
              {| waitRelease := true; machine := m |}
            = (let out := (liftM c;; doActionExp_loop this self nodes true sub l')
                            {| waitRelease := false; machine := m |} in
               (out.1, {| waitRelease := true; machine := machine out.2 |}))
            ∧ waitRelease
                ((liftM c;; doActionExp_loop this self nodes true sub l')
                   {| waitRelease := false; machine := m |}).2 = false) as Hstep.
  { intros c l' Hlen. unfold bind. rewrite !liftM_flag.
    destruct (c m) as [[[]|e] m1]; simpl; [|by split].
    by apply (IH (length l')). }
  cbn [doActionExp_loop]. destruct action as [name args|elements].
  - case_decide as Hname.
    + unfold bind at 1 2 3, gets; simpl. by apply (IH (length rest)); [lia|].
    + destruct (js_get (conditionActionRules this) name) as [rule|].
      * unfold bind. rewrite (rule_partition_flag rule nodes args true m).
        pose proof (rule_partition_frame rule nodes args
                      {| waitRelease := false; machine := m |}) as Hframe.
        destruct (rule_partition rule nodes args _)
          as [[[trueNodes falseNodes]|e] f']; cbn [fst snd] in *; subst f';
          [|by split].
        destruct rest as [|trueAction [|falseAction rest2]];
          rewrite !if_length_liftM_flag;
          destruct (if_length trueNodes _ m) as [[[]|e] m1]; cbn [fst snd machine];
          try (by split); rewrite ?if_length_liftM_flag; cbn [fst snd machine];
          try (by split).
        destruct (if_length falseNodes _ m1) as [[[]|e] m2]; cbn [fst snd machine];
          [|by split].
        apply (IH (length rest2)); [simpl in *; lia|done].
      * apply Hstep. lia.
  - apply Hstep. lia.
Qed.

(** X8: a top-level sequence that starts with the marker acquires the
    mutex, runs the rest of the sequence as a sub-action would run it (so
    further markers are ignored), and releases the mutex, whether the rest
    completed or threw. *)
Theorem doActionExp_Seq_marker (args : list string) (rest : list ActionExp)
    nodes options m :
  default false (isSubAction options) = false →
  let acquired :=
    {| source := on_world (mutex_acquire this) (source m);
       trace := trace m ++ [EvAcquire] |} in
  let out := doActionExp this (Seq rest) nodes (subOptions_of options) acquired in
  doActionExp this (Seq (Leaf (waitAction_name this) args :: rest)) nodes options m
  = (out.1,
     {| source := on_world (mutex_release this) (source out.2);
        trace := trace out.2 ++ [EvRelease] |}).
Proof.
  intros Hsub acquired out. subst out. rewrite !doActionExp_Seq.
  unfold run_frame, try_finally. rewrite !try_catch_rethrow.
  rewrite (doActionExp_at_marker this nodes options _ 0 args) by reflexivity.
  rewrite Hsub. cbn [waitRelease orb machine].
  unfold doActionExp_at. rewrite ?Hsub. fold acquired.
  change (subOptions_of (subOptions_of options)) with (subOptions_of options).
  change (default false (isSubAction (subOptions_of options))) with true.
  change (drop 1 (Leaf (waitAction_name this) args :: rest)) with rest.
  change (drop 0 rest) with rest.
  destruct (doActionExp_loop_held (doActionExp this) nodes (subOptions_of options)
              rest acquired) as [-> Hflag].
  cbv zeta.
  destruct (doActionExp_loop this (doActionExp this) nodes true _ rest _)
    as [r [held m1]]. simpl in *. subst held. reflexivity.
Qed.

(** *** Which callbacks a run calls *)

Lemma extends_with_refl P (f : @Frame TreeNode World) : extends_with P f f.
Proof. exists []. by rewrite app_nil_r. Qed.

Lemma extends_with_trans P (f1 f2 f3 : @Frame TreeNode World) :
  extends_with P f1 f2 → extends_with P f2 f3 → extends_with P f1 f3.
Proof.
  intros (t1 & Ht1 & HP1) (t2 & Ht2 & HP2). exists (t1 ++ t2).
  rewrite Ht2, Ht1. split; [by rewrite <- (assoc_L (++))|].
  by apply Forall_app.
Qed.

Lemma extends_with_bind P {A} (c : M Frame A) (k : A → M Frame unit)
    (f : @Frame TreeNode World) :
  extends_with P f (c f).2 →
  (∀ a f1, extends_with P f1 (k a f1).2) →
  extends_with P f (bind c k f).2.
Proof.
  intros Hc Hk. unfold bind.
  destruct (c f) as [[a|e] f1]; simpl in *; [|exact Hc].
  eapply extends_with_trans; [exact Hc|apply Hk].
Qed.

Lemma extends_with_liftM P (c : M Machine unit) (f : @Frame TreeNode World) :
  (∃ t, trace (c (machine f)).2 = trace (machine f) ++ t ∧ Forall P t) →
  extends_with P f (liftM c f).2.
Proof.
  intros (t & Ht & HP). unfold liftM.
  destruct (c (machine f)) as [r m']; simpl in *. by exists t.
Qed.

Lemma extends_with_if_length P (ns : list TreeNode) (c : M Frame unit)
    (f : @Frame TreeNode World) :
  extends_with P f (c f).2 → extends_with P f (if_length ns c f).2.
Proof. destruct ns; [intros _; apply extends_with_refl|done]. Qed.

Lemma doActionExp_loop_extends P self nodes (isSub : bool) sub (l : list ActionExp) :
  ((∃ args, Leaf (waitAction_name this) args ∈ l) → P EvAcquire) →
  (∀ e ns m, e ∈ l →
     ∃ t, trace (self e ns sub m).2 = trace m ++ t ∧ Forall P t) →
  ∀ f : @Frame TreeNode World,
    extends_with P f (doActionExp_loop this self nodes isSub sub l f).2.
Proof.
  remember (length l) as n eqn:Hn. revert l Hn.
  induction n as [n IH] using lt_wf_ind. intros l Hn Hacquire Hself f.
  assert (∀ l', length l' < n → (∀ e, e ∈ l' → e ∈ l) →
            ∀ a f1, extends_with P f1
                      ((λ _ : unit, doActionExp_loop this self nodes isSub sub l') a f1).2)
    as Hrest.
  { intros l' Hlen Hsub _ f1. eapply IH; [exact Hlen|reflexivity| |].
    - intros [args Hin]. apply Hacquire. exists args. by apply Hsub.
    - intros e ns m He. apply Hself, Hsub, He. }
  destruct l as [|action rest]; [apply extends_with_refl|].
  simpl in Hn. cbn [doActionExp_loop].
  assert (∀ ns (f1 : @Frame TreeNode World) e, e ∈ action :: rest →
            extends_with P f1 (liftM (self e ns sub) f1).2) as Hcall.
  { intros ns f1 e He. apply extends_with_liftM, Hself, He. }
  assert (∀ f1 : @Frame TreeNode World,
            extends_with P f1 (liftM (@doActionExp_undefined TreeNode World) f1).2)
    as Hundef.
  { intros f1. apply extends_with_liftM. exists []. by rewrite app_nil_r. }
  destruct action as [name args|elements].
  - case_decide as Hname.
    + unfold bind at 1, gets at 1.
      destruct (waitRelease f || isSub); simpl.
      * apply (Hrest rest); [lia|set_solver|exact tt].
      * apply extends_with_bind; [|apply Hrest; [lia|set_solver]].
        exists [EvAcquire]. split; [reflexivity|]. constructor; [|constructor].
        apply Hacquire. exists args. subst name. set_solver.
    + destruct (js_get (conditionActionRules this) name) as [rule|].
      * apply extends_with_bind;
          [rewrite rule_partition_frame; apply extends_with_refl|].
        intros [trueNodes falseNodes] f0.
        destruct rest as [|trueAction [|falseAction rest2]].
        -- apply extends_with_bind; [apply extends_with_if_length, Hundef|].
           intros _ f1. apply extends_with_if_length, Hundef.
        -- apply extends_with_bind;
             [apply extends_with_if_length, Hcall; set_solver|].
           intros _ f1. apply extends_with_if_length, Hundef.
        -- apply extends_with_bind;
             [apply extends_with_if_length, Hcall; set_solver|].
           intros _ f1.
           apply extends_with_bind;
             [apply extends_with_if_length, Hcall; set_solver|].
           apply Hrest; [simpl in *; lia|set_solver].
      * apply extends_with_bind; [apply Hcall; set_solver|].
        apply Hrest; [lia|set_solver].
  - apply extends_with_bind; [apply Hcall; set_solver|].
    apply Hrest; [lia|set_solver].
Qed.

Lemma run_frame_extends P (body : M (@Frame TreeNode World) unit) m :
  P EvRelease →
  extends_with P {| waitRelease := false; machine := m |}
    (body {| waitRelease := false; machine := m |}).2 →
  ∃ t, trace (run_frame (try_finally (try_catch body rethrow)
                           (release_if_held this)) m).2 = trace m ++ t
       ∧ Forall P t.
Proof.
  intros Hrelease (t & Ht & HP). unfold run_frame, try_finally.
  rewrite try_catch_rethrow.
  destruct (body _) as [r [held m1]]. simpl in *.
  unfold release_if_held, bind, gets; simpl. destruct held; simpl.
  - exists (t ++ [EvRelease]). rewrite Ht.
    split; [by rewrite <- (assoc_L (++))|].
    apply Forall_app. split; [exact HP|by constructor].
  - by exists t.
Qed.

Lemma doAction_events name (nodes : NodesArg) (args : list string) (md : MappingMode) m :
  ∃ t, trace (doAction this name nodes (Some args) (Some md) m).2 = trace m ++ t
       ∧ Forall (called_from this (Leaf name args) md) t.
Proof.
  destruct (registeredAction this name) as [[action|inherited]|] eqn:Hres;
    [|unfold doAction; rewrite Hres; exists []; by rewrite app_nil_r..].
  - assert (∃ arg m0 req,
               trace m0 = trace m ++ (EvRequestRenderNodes <$> req)
               ∧ cb_args arg = args ∧ cb_mode arg = md
               ∧ settles_as name action arg m0
                   (doAction this name nodes (Some args) (Some md) m))
      as (arg & m0 & req & Hm0 & Hargs & Hmode & _ & _ & Ht).
    { destruct (select (options action)) as [[]|] eqn:Hsel.
      - eexists _, _, [_].
        split; [|split; [|split; [|by apply doAction_select_settles]]]; done.
      - eexists _, m, [].
        split; [by rewrite app_nil_r|]. split; [|split];
          [| |apply doAction_single_settles; [done|by rewrite Hsel]]; done.
      - eexists _, m, [].
        split; [by rewrite app_nil_r|]. split; [|split];
          [| |by apply doAction_visual_settles]; done.
      - eexists _, m, [].
        split; [by rewrite app_nil_r|]. split; [|split];
          [| |by apply doAction_keep_settles]; done.
      - eexists _, m, [].
        split; [by rewrite app_nil_r|]. split; [|split];
          [| |apply doAction_single_settles; [done|by rewrite Hsel]]; done. }
    exists ((EvRequestRenderNodes <$> req) ++ [EvCallback name arg] ++ post_events action).
    rewrite Ht, Hm0. split; [by rewrite <- !(assoc_L (++))|].
    apply Forall_app. split.
    + apply Forall_fmap, Forall_true. done.
    + apply Forall_app. split.
      * constructor; [|constructor]. simpl. rewrite Hargs, Hres.
        split; [set_solver|]. split; [done|by eexists].
      * unfold post_events.
        destruct (default false (reload (options action))),
          (default false (render (options action))); repeat constructor.
Qed.

Lemma called_from_element (e : ActionExp) (l : list ActionExp) md
    (ev : @Event TreeNode) :
  e ∈ l → called_from this e md ev → called_from this (Seq l) md ev.
Proof.
  intros He. destruct ev as [| | |name arg| |]; try done.
  intros (Hleaf & Hmode & Hreg). split; [|done].
  cbn [leaves]. apply list_elem_of_In, in_concat. exists (leaves e).
  split; [|by apply list_elem_of_In].
  apply in_map, list_elem_of_In, He.
Qed.

(** X9: every callback a run calls belongs to a registered action that a
    leaf of the expression names, and it is called with that leaf's [args]
    and with the mode of the run, at every depth of nesting. *)
Theorem doActionExp_callbacks e nodes options m :
  ∃ t, trace (doActionExp this e nodes options m).2 = trace m ++ t
       ∧ Forall (called_from this e (default "n" (mode options))) t.
Proof.
  revert nodes options m.
  induction e as [name args|elements IH] using ActionExp_nested_ind;
    intros nodes options m.
  - rewrite doActionExp_Leaf_run. apply doAction_events.
  - rewrite doActionExp_Seq. apply run_frame_extends; [done|].
    unfold doActionExp_at. rewrite drop_0.
    apply doActionExp_loop_extends; [done|].
    intros e ns m' He. rewrite Forall_forall in IH.
    destruct (IH e He ns (subOptions_of options) m') as (t & Ht & HP).
    exists t. split; [exact Ht|].
    eapply Forall_impl; [exact HP|].
    intros ev. by apply called_from_element.
Qed.

(** *** Runs that leave the mutex alone *)

Lemma acquisitions_none (t : list (@Event TreeNode)) :
  Forall (λ ev, is_acquire ev = false) t → acquisitions t = 0.
Proof.
  unfold acquisitions. induction 1 as [|ev t Hev _ IH]; [done|].
  rewrite filter_cons_False by congruence. exact IH.
Qed.

Lemma none_acquisitions (t : list (@Event TreeNode)) :
  acquisitions t = 0 → Forall (λ ev, is_acquire ev = false) t.
Proof.
  unfold acquisitions. induction t as [|ev t IH]; [constructor|].
  destruct (is_acquire ev) eqn:Hev.
  - rewrite filter_cons_True by done. simpl. lia.
  - rewrite filter_cons_False by congruence. intros Hz.
    constructor; [done|by apply IH].
Qed.

(** X15: a run takes the mutex only if the marker is itself one of the
    elements of the sequence: when it is not (markers inside nested
    sequences do not count), the run neither acquires nor releases the
    mutex, whatever else it does. *)
Theorem doActionExp_without_marker (elements : list ActionExp) nodes options m :
  (∀ args, Leaf (waitAction_name this) args ∉ elements) →
  ∃ t, trace (doActionExp this (Seq elements) nodes options m).2 = trace m ++ t
       ∧ acquisitions t = 0 ∧ releases t = 0.
Proof.
  intros Hmarker.
  assert (∃ t, trace (doActionExp this (Seq elements) nodes options m).2 = trace m ++ t
               ∧ Forall (λ ev, is_acquire ev = false) t) as (t & Ht & Hnone).
  { rewrite doActionExp_Seq. apply run_frame_extends; [done|].
    unfold doActionExp_at. rewrite drop_0.
    apply doActionExp_loop_extends.
    - intros [args Hin]. by apply Hmarker in Hin.
    - intros e ns m' _.
      destruct (doActionExp_released this e ns (subOptions_of options) m')
        as (t & held & Ht & Hr & Ha & Hs).
      simpl in Hs. subst held. exists t. rewrite Ht, app_nil_r.
      split; [done|]. by apply none_acquisitions. }
  exists t. split; [exact Ht|]. split; [by apply acquisitions_none|].
  destruct (doActionExp_released this (Seq elements) nodes options m)
    as (t' & held & Ht' & Hr & Ha & _).
  rewrite Ht in Ht'. apply app_inv_head in Ht'. subst t.
  rewrite Forall_app in Hnone. destruct Hnone as [Hnone _].
  apply acquisitions_none in Hnone. rewrite Hnone in Ha.
  destruct held; [done|]. rewrite app_nil_r. exact Hr.
Qed.

End More_properties.

(** ** The git binder *)

Section Git_properties.
Import GitBinder.
Context {GitFormat : Type} `{EqDecision GitFormat}.
Context {GitIgnore : Type} `{EqDecision GitIgnore}.
Variable directory : GitIgnore.
Context {ExplorerSource : Type}.
Implicit Types (a b : @GitMixedStatus GitFormat).
Implicit Types (p q d root : string).
Implicit Types (u : Updates).

Lemma statusEqual_refl a : statusEqual a a = true.
Proof. unfold statusEqual. by rewrite !bool_decide_eq_true_2. Qed.

Lemma same_status_refl (o : option (@GitMixedStatus GitFormat)) :
  same_status o o = true.
Proof. destruct o; [apply statusEqual_refl|done]. Qed.

Lemma status_loop_spec (prevS statuses : gmap string (@GitMixedStatus GitFormat))
    (paths : gset string) :
  let r := map_fold status_step (prevS, paths) statuses in
  (∀ p, r.1 !! p =
          match prevS !! p, statuses !! p with
          | Some old, Some s => if statusEqual old s then None else Some old
          | o, _ => o
          end)
  ∧ (∀ p, p ∈ r.2 ↔
            p ∈ paths
            ∨ ∃ s, statuses !! p = Some s ∧ same_status (prevS !! p) (Some s) = false).
Proof.
  cbv zeta. apply (map_fold_weak_ind (λ r m,
    (∀ p, r.1 !! p =
            match prevS !! p, m !! p with
            | Some old, Some s => if statusEqual old s then None else Some old
            | o, _ => o
            end)
    ∧ (∀ p, p ∈ r.2 ↔
              p ∈ paths
              ∨ ∃ s, m !! p = Some s ∧ same_status (prevS !! p) (Some s) = false))).
  - split.
    + intros p; simpl. rewrite lookup_empty. by destruct (prevS !! p).
    + intros p; simpl. setoid_rewrite lookup_empty. naive_solver.
  - intros i s m [prev ps] Hi [Hprev Hps]. simpl in *.
    assert (prev !! i = prevS !! i) as Hprev_i.
    { rewrite Hprev, Hi. by destruct (prevS !! i). }
    unfold status_step; simpl. rewrite Hprev_i.
    split.
    + intros p. destruct (decide (p = i)) as [->|Hne].
      * rewrite lookup_insert_eq.
        destruct (prevS !! i) as [old|] eqn:Hold; [|simpl; by rewrite Hprev_i].
        destruct (statusEqual old s); simpl;
          [by rewrite lookup_delete_eq|by rewrite Hprev_i].
      * rewrite lookup_insert_ne by done. rewrite <- Hprev.
        destruct (prevS !! i) as [old|]; [|done].
        destruct (statusEqual old s); simpl; [by rewrite lookup_delete_ne|done].
    + intros p.
      assert (p ∈ (match prevS !! i with
                   | Some old =>
                       if statusEqual old s then (delete i prev, ps)
                       else (prev, ps ∪ {[i]})
                   | None => (prev, ps ∪ {[i]})
                   end).2
              ↔ p ∈ ps ∨ (p = i ∧ same_status (prevS !! i) (Some s) = false)) as ->.
      { destruct (prevS !! i) as [old|]; simpl;
          [destruct (statusEqual old s)|]; simpl; set_solver. }
      rewrite Hps. destruct (decide (p = i)) as [->|Hne].
      * rewrite lookup_insert_eq. setoid_rewrite Hi. naive_solver.
      * rewrite lookup_insert_ne by done. naive_solver.
Qed.

Lemma addGitIgnore_paths p (k : GitIgnore) u q :
  q ∈ updatePaths (addGitIgnore directory p k u)
  ↔ q ∈ updatePaths u ∨ (q = p ∧ k ≠ directory).
Proof. unfold addGitIgnore. case_decide; simpl; set_solver. Qed.

Lemma addGitIgnore_dirs p (k : GitIgnore) u d :
  d ∈ updateDirs (addGitIgnore directory p k u)
  ↔ d ∈ updateDirs u ∨ (d = strip_trailing_separator p ∧ k = directory).
Proof. unfold addGitIgnore. case_decide; simpl; set_solver. Qed.

Lemma ignore_loop_spec (prevI ignores : gmap string GitIgnore) u :
  let r := map_fold (ignore_step directory) (prevI, u) ignores in
  (∀ p, r.1 !! p =
          match prevI !! p, ignores !! p with
          | Some old, Some k => if decide (old = k) then None else Some old
          | o, _ => o
          end)
  ∧ (∀ q, q ∈ updatePaths r.2 ↔
            q ∈ updatePaths u
            ∨ ∃ k, ignores !! q = Some k ∧ prevI !! q ≠ Some k ∧ k ≠ directory)
  ∧ (∀ d, d ∈ updateDirs r.2 ↔
            d ∈ updateDirs u
            ∨ ∃ p, d = strip_trailing_separator p
                   ∧ ignores !! p = Some directory ∧ prevI !! p ≠ Some directory).
Proof.
  cbv zeta. apply (map_fold_weak_ind (λ r m,
    (∀ p, r.1 !! p =
            match prevI !! p, m !! p with
            | Some old, Some k => if decide (old = k) then None else Some old
            | o, _ => o
            end)
    ∧ (∀ q, q ∈ updatePaths r.2 ↔
              q ∈ updatePaths u
              ∨ ∃ k, m !! q = Some k ∧ prevI !! q ≠ Some k ∧ k ≠ directory)
    ∧ (∀ d, d ∈ updateDirs r.2 ↔
              d ∈ updateDirs u
              ∨ ∃ p, d = strip_trailing_separator p
                     ∧ m !! p = Some directory ∧ prevI !! p ≠ Some directory))).
  - split; [|split].
    + intros p; simpl. rewrite lookup_empty. by destruct (prevI !! p).
    + intros q; simpl. setoid_rewrite lookup_empty. naive_solver.
    + intros d; simpl. setoid_rewrite lookup_empty. naive_solver.
  - intros i k m [prev acc] Hi (Hprev & Hps & Hds). simpl in *.
    assert (prev !! i = prevI !! i) as Hprev_i.
    { rewrite Hprev, Hi. by destruct (prevI !! i). }
    unfold ignore_step; simpl. rewrite Hprev_i.
    split; [|split].
    + intros p. destruct (decide (p = i)) as [->|Hne].
      * rewrite lookup_insert_eq.
        destruct (prevI !! i) as [old|] eqn:Hold; [|simpl; by rewrite Hprev_i].
        destruct (decide (old = k)); simpl;
          [by rewrite lookup_delete_eq|by rewrite Hprev_i].
      * rewrite lookup_insert_ne by done. rewrite <- Hprev.
        destruct (prevI !! i) as [old|]; [|done].
        destruct (decide (old = k)); simpl; [by rewrite lookup_delete_ne|done].
    + intros q.
      assert (q ∈ updatePaths
                (match prevI !! i with
                 | Some old =>
                     if decide (old = k) then (delete i prev, acc)
                     else (prev, addGitIgnore directory i k acc)
                 | None => (prev, addGitIgnore directory i k acc)
                 end).2
              ↔ q ∈ updatePaths acc
                ∨ (q = i ∧ prevI !! i ≠ Some k ∧ k ≠ directory)) as ->.
      { destruct (prevI !! i) as [old|]; simpl;
          [destruct (decide (old = k))|]; simpl;
          rewrite ?addGitIgnore_paths; naive_solver. }
      rewrite Hps. destruct (decide (q = i)) as [->|Hne].
      * rewrite lookup_insert_eq. setoid_rewrite Hi. naive_solver.
      * rewrite lookup_insert_ne by done. naive_solver.
    + intros d.
      assert (d ∈ updateDirs
                (match prevI !! i with
                 | Some old =>
                     if decide (old = k) then (delete i prev, acc)
                     else (prev, addGitIgnore directory i k acc)
                 | None => (prev, addGitIgnore directory i k acc)
                 end).2
              ↔ d ∈ updateDirs acc
                ∨ (d = strip_trailing_separator i
                   ∧ prevI !! i ≠ Some k ∧ k = directory)) as ->.
      { destruct (prevI !! i) as [old|]; simpl;
          [destruct (decide (old = k))|]; simpl;
          rewrite ?addGitIgnore_dirs; naive_solver. }
      rewrite Hds. split.
      * intros [[Hd|(p & -> & Hp & Hne)]|(-> & Hne & ->)]; [by left| |].
        -- right. exists p. split; [done|]. split; [|done].
           rewrite lookup_insert_ne; [done|]. intros ->. by rewrite Hi in Hp.
        -- right. exists i. by rewrite lookup_insert_eq.
      * intros [Hd|(p & -> & Hp & Hne)]; [by left; left|].
        destruct (decide (p = i)) as [->|Hpi].
        -- rewrite lookup_insert_eq in Hp. simplify_eq. by right.
        -- rewrite lookup_insert_ne in Hp by done. left; right. by exists p.
Qed.

Lemma remaining_loop_spec (prev : gmap string GitIgnore) u :
  let r := map_fold (addGitIgnore directory) u prev in
  (∀ q, q ∈ updatePaths r ↔
          q ∈ updatePaths u ∨ ∃ k, prev !! q = Some k ∧ k ≠ directory)
  ∧ (∀ d, d ∈ updateDirs r ↔
            d ∈ updateDirs u
            ∨ ∃ p, d = strip_trailing_separator p ∧ prev !! p = Some directory).
Proof.
  cbv zeta. apply (map_fold_weak_ind (λ r m,
    (∀ q, q ∈ updatePaths r ↔
            q ∈ updatePaths u ∨ ∃ k, m !! q = Some k ∧ k ≠ directory)
    ∧ (∀ d, d ∈ updateDirs r ↔
              d ∈ updateDirs u
              ∨ ∃ p, d = strip_trailing_separator p ∧ m !! p = Some directory))).
  - split; intros ?; setoid_rewrite lookup_empty; naive_solver.
  - intros i k m acc Hi [Hps Hds]. split.
    + intros q. rewrite addGitIgnore_paths, Hps.
      destruct (decide (q = i)) as [->|Hne].
      * rewrite lookup_insert_eq. setoid_rewrite Hi. naive_solver.
      * rewrite lookup_insert_ne by done. naive_solver.
    + intros d. rewrite addGitIgnore_dirs, Hds. split.
      * intros [[Hd|(p & -> & Hp)]|[-> ->]]; [by left| |].
        -- right. exists p. split; [done|].
           rewrite lookup_insert_ne; [done|]. intros ->. by rewrite Hi in Hp.
        -- right. exists i. by rewrite lookup_insert_eq.
      * intros [Hd|(p & -> & Hp)]; [by left; left|].
        destruct (decide (p = i)) as [->|Hpi].
        -- rewrite lookup_insert_eq in Hp. simplify_eq. by right.
        -- rewrite lookup_insert_ne in Hp by done. left; right. by exists p.
Qed.

Lemma rootStatusEqual_refl (r : GitRootStatus) : rootStatusEqual r r = true.
Proof. unfold rootStatusEqual. by rewrite !bool_decide_eq_true_2. Qed.

Lemma status_loop_paths (prevS statuses : gmap string (@GitMixedStatus GitFormat))
    (paths : gset string) p :
  let r := map_fold status_step (prevS, paths) statuses in
  p ∈ r.2 ∪ dom r.1 ↔
    p ∈ paths ∨ same_status (prevS !! p) (statuses !! p) = false.
Proof.
  intros r. destruct (status_loop_spec prevS statuses paths) as [Hs1 Hs2].
  fold r in Hs1, Hs2.
  rewrite elem_of_union, Hs2, elem_of_dom, Hs1. unfold is_Some.
  destruct (prevS !! p) as [old|], (statuses !! p) as [st|]; cbn [same_status].
  - destruct (statusEqual old st) eqn:Heq.
    + split; [|intros [?|?]; [by left; left|done]].
      intros [[?|(s & ? & ?)]|[? ?]]; [by left| |done]. simplify_eq. congruence.
    + split; [intros _; by right|]. intros _. left; right. by exists st.
  - split; [intros _; by right|]. intros _. by right; exists old.
  - split; [intros _; by right|]. intros _. left; right. by exists st.
  - split; [|intros [?|?]; [by left; left|done]].
    intros [[?|(s & ? & ?)]|[? ?]]; [by left|done..].
Qed.

Lemma ignore_changed_iff (prevI ignores prev1 : gmap string GitIgnore) p :
  prev1 !! p =
    match prevI !! p, ignores !! p with
    | Some old, Some k => if decide (old = k) then None else Some old
    | o, _ => o
    end →
  (∃ k, ignores !! p = Some k ∧ prevI !! p ≠ Some k ∧ k ≠ directory)
  ∨ (∃ k, prev1 !! p = Some k ∧ k ≠ directory)
  ↔ ∃ k, k ≠ directory
         ∧ prevI !! p ≠ ignores !! p
         ∧ (ignores !! p = Some k ∨ prevI !! p = Some k).
Proof.
  intros ->. destruct (prevI !! p) as [k0|], (ignores !! p) as [k1|].
  - destruct (decide (k0 = k1)) as [->|Hne]; naive_solver.
  - naive_solver.
  - naive_solver.
  - naive_solver.
Qed.

Lemma reload_root_paths root (snapshot : @Snapshot GitFormat GitIgnore)
    (this : @Binder GitFormat GitIgnore) u p :
  let prevS := default ∅ (prevStatuses this !! root) in
  let prevI := default ∅ (prevIgnores this !! root) in
  let prevR := default noRootStatus (prevRootStatus this !! root) in
  p ∈ updatePaths (reload_root directory root snapshot (this, u)).2 ↔
    p ∈ updatePaths u
    ∨ same_status (prevS !! p) (statuses snapshot !! p) = false
    ∨ (∃ k, k ≠ directory
            ∧ prevI !! p ≠ ignores snapshot !! p
            ∧ (ignores snapshot !! p = Some k ∨ prevI !! p = Some k))
    ∨ (p = root
       ∧ rootStatusEqual prevR (default noRootStatus (rootStatus snapshot)) = false).
Proof.
  intros prevS prevI prevR. unfold reload_root. cbn [fst snd].
  fold prevS prevI prevR.
  pose proof (status_loop_paths prevS (statuses snapshot) (updatePaths u) p) as Hs.
  cbv zeta in Hs.
  set (aS := map_fold status_step (prevS, updatePaths u) (statuses snapshot)) in *.
  destruct (ignore_loop_spec prevI (ignores snapshot)
              {| updatePaths := aS.2 ∪ dom aS.1; updateDirs := updateDirs u |})
    as (Hi1 & Hi2 & _).
  set (aI := map_fold (ignore_step directory) _ (ignores snapshot)) in *.
  destruct (remaining_loop_spec aI.1 aI.2) as [Hr1 _].
  set (upd := map_fold (addGitIgnore directory) aI.2 aI.1) in *.
  pose proof (ignore_changed_iff prevI (ignores snapshot) aI.1 p (Hi1 p)) as Hi.
  assert (p ∈ updatePaths upd ↔
            p ∈ updatePaths u
            ∨ same_status (prevS !! p) (statuses snapshot !! p) = false
            ∨ (∃ k, k ≠ directory
                    ∧ prevI !! p ≠ ignores snapshot !! p
                    ∧ (ignores snapshot !! p = Some k ∨ prevI !! p = Some k)))
    as Hupd.
  { rewrite Hr1, Hi2. cbn [updatePaths]. rewrite Hs, <- Hi. tauto. }
  destruct (rootStatusEqual prevR _); cbn [negb updatePaths].
  - rewrite Hupd. split; [tauto|]. intros [?|[?|[?|[_ ?]]]]; [tauto..|done].
  - rewrite elem_of_union, elem_of_singleton, Hupd. tauto.
Qed.

Lemma reload_root_dirs root (snapshot : @Snapshot GitFormat GitIgnore)
    (this : @Binder GitFormat GitIgnore) u d :
  let prevI := default ∅ (prevIgnores this !! root) in
  d ∈ updateDirs (reload_root directory root snapshot (this, u)).2 ↔
    d ∈ updateDirs u
    ∨ ∃ p, d = strip_trailing_separator p
           ∧ prevI !! p ≠ ignores snapshot !! p
           ∧ (ignores snapshot !! p = Some directory ∨ prevI !! p = Some directory).
Proof.
  intros prevI. unfold reload_root. cbn [fst snd]. fold prevI.
  set (aS := map_fold status_step _ (statuses snapshot)).
  destruct (ignore_loop_spec prevI (ignores snapshot)
              {| updatePaths := aS.2 ∪ dom aS.1; updateDirs := updateDirs u |})
    as (Hi1 & _ & Hi3).
  set (aI := map_fold (ignore_step directory) _ (ignores snapshot)) in *.
  destruct (remaining_loop_spec aI.1 aI.2) as [_ Hr2].
  set (upd := map_fold (addGitIgnore directory) aI.2 aI.1) in *.
  assert (d ∈ updateDirs upd ↔
            d ∈ updateDirs u
            ∨ ∃ p, d = strip_trailing_separator p
                   ∧ prevI !! p ≠ ignores snapshot !! p
                   ∧ (ignores snapshot !! p = Some directory
                      ∨ prevI !! p = Some directory)) as Hupd.
  { rewrite Hr2, Hi3. cbn [updateDirs]. split.
    - intros [[Hd|(p & -> & Hp & Hne)]|(p & -> & Hp)]; [by left| |].
      + right. exists p. rewrite Hp. naive_solver.
      + right. exists p. rewrite Hi1 in Hp.
        destruct (prevI !! p) as [k0|], (ignores snapshot !! p) as [k1|];
          try destruct (decide (k0 = k1)); naive_solver.
    - intros [Hd|(p & -> & Hne & [Hp|Hp])]; [by left; left| |].
      + left; right. exists p. rewrite Hp in Hne. naive_solver.
      + right. exists p. rewrite Hi1, Hp.
        destruct (ignores snapshot !! p) as [k1|]; [|done].
        destruct (decide (directory = k1)); naive_solver. }
  destruct (rootStatusEqual _ _); cbn [negb updateDirs]; exact Hupd.
Qed.

Lemma reload_root_state root (snapshot : @Snapshot GitFormat GitIgnore)
    (this : @Binder GitFormat GitIgnore) u :
  (reload_root directory root snapshot (this, u)).1 =
    {| prevStatuses := <[root := statuses snapshot]> (prevStatuses this);
       prevIgnores := <[root := ignores snapshot]> (prevIgnores this);
       prevRootStatus :=
         <[root := default noRootStatus (rootStatus snapshot)]> (prevRootStatus this) |}.
Proof. reflexivity. Qed.

Lemma reload_root_records root (snapshot : @Snapshot GitFormat GitIgnore)
    (this : @Binder GitFormat GitIgnore) u :
  records (reload_root directory root snapshot (this, u)).1 root snapshot.
Proof.
  rewrite reload_root_state. unfold records; simpl.
  by rewrite !lookup_insert_eq.
Qed.

Lemma reload_root_records_other root root' (snapshot snapshot' : @Snapshot GitFormat GitIgnore)
    (this : @Binder GitFormat GitIgnore) u :
  root' ≠ root →
  records this root snapshot →
  records (reload_root directory root' snapshot' (this, u)).1 root snapshot.
Proof.
  intros Hne (H1 & H2 & H3). rewrite reload_root_state. unfold records; simpl.
  by rewrite !lookup_insert_ne.
Qed.

Lemma reload_root_recorded root (snapshot : @Snapshot GitFormat GitIgnore)
    (this : @Binder GitFormat GitIgnore) u :
  records this root snapshot →
  reload_root directory root snapshot (this, u) = (this, u).
Proof.
  intros (H1 & H2 & H3).
  assert (updatePaths (reload_root directory root snapshot (this, u)).2 = updatePaths u)
    as Hpaths.
  { apply set_eq. intros p. rewrite reload_root_paths, H1, H2, H3; simpl.
    rewrite same_status_refl, rootStatusEqual_refl. naive_solver. }
  assert (updateDirs (reload_root directory root snapshot (this, u)).2 = updateDirs u)
    as Hdirs.
  { apply set_eq. intros d. rewrite reload_root_dirs, H2; simpl. naive_solver. }
  pose proof (reload_root_state root snapshot this u) as Hstate.
  destruct (reload_root directory root snapshot (this, u)) as [this' [ps ds]].
  simpl in *. subst this' ps ds. destruct this as [pS pI pR], u as [ps ds]; simpl in *.
  by rewrite !insert_id.
Qed.

Lemma foldl_reload_root_records_other root (snapshot : @Snapshot GitFormat GitIgnore)
    (observed : list (string * @Snapshot GitFormat GitIgnore))
    (state : @Binder GitFormat GitIgnore * Updates) :
  root ∉ observed.*1 →
  records state.1 root snapshot →
  records (foldl (λ state r, reload_root directory r.1 r.2 state) state observed).1
    root snapshot.
Proof.
  revert state. induction observed as [|[r sn] observed IH]; intros [this u] Hnot Hrec.
  - exact Hrec.
  - cbn [foldl fst snd]. apply IH; [set_solver|].
    destruct (reload_root directory r sn (this, u)) as [this' u'] eqn:Hstep.
    change this' with (this', u').1. rewrite <- Hstep.
    apply reload_root_records_other; [set_solver|exact Hrec].
Qed.

Lemma foldl_reload_root_untouched root
    (observed : list (string * @Snapshot GitFormat GitIgnore))
    (state : @Binder GitFormat GitIgnore * Updates) :
  root ∉ observed.*1 →
  let after := (foldl (λ state r, reload_root directory r.1 r.2 state) state observed).1 in
  prevStatuses after !! root = prevStatuses state.1 !! root
  ∧ prevIgnores after !! root = prevIgnores state.1 !! root
  ∧ prevRootStatus after !! root = prevRootStatus state.1 !! root.
Proof.
  revert state. induction observed as [|[r sn] observed IH]; intros [this u] Hnot.
  - done.
  - cbn [foldl fst snd]. cbn [fmap list_fmap fst] in Hnot.
    apply not_elem_of_cons in Hnot as [Hne Hnot].
    destruct (IH (reload_root directory r sn (this, u)) Hnot) as (H1 & H2 & H3).
    cbv zeta. rewrite H1, H2, H3, reload_root_state. cbn [fst prevStatuses
      prevIgnores prevRootStatus]. by rewrite !lookup_insert_ne.
Qed.

Lemma foldl_reload_root_records
    (observed : list (string * @Snapshot GitFormat GitIgnore))
    (state : @Binder GitFormat GitIgnore * Updates) root snapshot :
  NoDup observed.*1 →
  (root, snapshot) ∈ observed →
  records (foldl (λ state r, reload_root directory r.1 r.2 state) state observed).1
    root snapshot.
Proof.
  revert state. induction observed as [|[r sn] observed IH]; intros [this u] Hnodup Hin.
  - by apply elem_of_nil in Hin.
  - cbn [fmap list_fmap fst] in Hnodup. apply NoDup_cons in Hnodup as [Hr Hnodup].
    cbn [foldl fst snd]. apply elem_of_cons in Hin as [Heq|Hin].
    + simplify_eq. apply foldl_reload_root_records_other; [exact Hr|].
      apply reload_root_records.
    + destruct (reload_root directory r sn (this, u)) as [this' u'].
      by apply IH.
Qed.

Lemma foldl_reload_root_recorded
    (observed : list (string * @Snapshot GitFormat GitIgnore))
    (this : @Binder GitFormat GitIgnore) u :
  (∀ root snapshot, (root, snapshot) ∈ observed → records this root snapshot) →
  foldl (λ state r, reload_root directory r.1 r.2 state) (this, u) observed = (this, u).
Proof.
  induction observed as [|[r sn] observed IH]; intros Hrec; [done|].
  cbn [foldl fst snd]. rewrite reload_root_recorded by (apply Hrec; set_solver).
  apply IH. intros root snapshot Hin. apply Hrec. set_solver.
Qed.

(** *** [rootStatusEqual] and [join] *)

Lemma join_cons_cons sep s t (rest : list string) :
  join sep (s :: t :: rest) = String.append s (String.append sep (join sep (t :: rest))).
Proof. reflexivity. Qed.

Lemma occurs_append c (s1 s2 : string) :
  occurs c (String.append s1 s2) = occurs c s1 || occurs c s2.
Proof.
  induction s1 as [|c1 s1 IH]; simpl; [done|].
  rewrite IH. by destruct (bool_decide (c1 = c)).
Qed.

Lemma append_comma_inj (s1 s2 r1 r2 : string) :
  occurs ","%char s1 = false →
  occurs ","%char s2 = false →
  String.append s1 (String.append "," r1) = String.append s2 (String.append "," r2) →
  s1 = s2 ∧ r1 = r2.
Proof.
  revert s2. induction s1 as [|c1 s1 IH]; intros [|c2 s2] H1 H2 Heq;
    simpl in *.
  - by simplify_eq.
  - by simplify_eq.
  - by simplify_eq.
  - simplify_eq. apply orb_false_iff in H1 as [_ H1], H2 as [_ H2].
    destruct (IH s2 H1 H2) as [-> ->]; done.
Qed.

Lemma join_plain_not_empty s (rest : list string) :
  plain_format s → join "," (s :: rest) ≠ "".
Proof.
  intros [Hs _]. destruct rest as [|t rest]; [done|].
  rewrite join_cons_cons. destruct s; [done|]. simpl. discriminate.
Qed.

Lemma join_comma_inj (l1 l2 : list string) :
  Forall plain_format l1 → Forall plain_format l2 →
  join "," l1 = join "," l2 → l1 = l2.
Proof.
  revert l2. induction l1 as [|s1 r1 IH]; intros [|s2 r2] H1 H2 Heq.
  - done.
  - apply Forall_cons in H2 as [H2 _].
    exfalso. by eapply join_plain_not_empty.
  - apply Forall_cons in H1 as [H1 _].
    exfalso. by eapply join_plain_not_empty.
  - apply Forall_cons in H1 as [[_ Hs1] H1]. apply Forall_cons in H2 as [[_ Hs2] H2].
    destruct r1 as [|t1 r1], r2 as [|t2 r2].
    + simpl in Heq. by subst.
    + rewrite join_cons_cons in Heq. simpl in Heq. subst s1.
      rewrite occurs_append in Hs1. simpl in Hs1.
      by rewrite orb_true_r in Hs1.
    + rewrite join_cons_cons in Heq. simpl in Heq. subst s2.
      rewrite occurs_append in Hs2. simpl in Hs2.
      by rewrite orb_true_r in Hs2.
    + rewrite !join_cons_cons in Heq.
      apply append_comma_inj in Heq as [-> Heq]; [|done..].
      f_equal. by apply IH.
Qed.

(** X10: on root statuses whose formats are non-empty strings without a
    comma, [rootStatusEqual] holds exactly of equal statuses.  (Without that
    proviso it does not: the formats are compared after [join(',')], which
    cannot tell [[]] from [['']] or [['a,b']] from [['a', 'b']].) *)
Theorem rootStatusEqual_true_iff (r1 r2 : GitRootStatus) :
  Forall plain_format (formats r1) →
  Forall plain_format (formats r2) →
  rootStatusEqual r1 r2 = true ↔ r1 = r2.
Proof.
  intros H1 H2. split; [|intros ->; apply rootStatusEqual_refl].
  unfold rootStatusEqual. destruct r1 as [s1 f1], r2 as [s2 f2]; simpl in *.
  case_bool_decide as Hs; simpl; [|done].
  intros Hf%bool_decide_eq_true. subst. f_equal. by apply join_comma_inj.
Qed.

(** *** [reload] *)

(** X11: after one root is processed, a path is among the paths to render
    exactly if it was there already, or the binder's record of its status
    and the reported status differ (changed, new or gone), or its ignore
    entry differs from the recorded one and the recorded or the reported
    entry is not [GitIgnore.directory], or it is the root and the root
    status is not [rootStatusEqual] to the recorded one. *)
Theorem reload_root_updatePaths root (snapshot : @Snapshot GitFormat GitIgnore)
    (this : @Binder GitFormat GitIgnore) u p :
  let prevS := default ∅ (prevStatuses this !! root) in
  let prevI := default ∅ (prevIgnores this !! root) in
  let prevR := default noRootStatus (prevRootStatus this !! root) in
  p ∈ updatePaths (reload_root directory root snapshot (this, u)).2 ↔
    p ∈ updatePaths u
    ∨ same_status (prevS !! p) (statuses snapshot !! p) = false
    ∨ (∃ k, k ≠ directory
            ∧ prevI !! p ≠ ignores snapshot !! p
            ∧ (ignores snapshot !! p = Some k ∨ prevI !! p = Some k))
    ∨ (p = root
       ∧ rootStatusEqual prevR (default noRootStatus (rootStatus snapshot)) = false).
Proof. apply reload_root_paths. Qed.

(** X12: after one root is processed, the directories to render with their
    children are those that were there already and, with a final slash or
    backslash removed, the paths whose ignore entry differs from the recorded
    one where the recorded or the reported entry is [GitIgnore.directory]. *)
Theorem reload_root_updateDirs root (snapshot : @Snapshot GitFormat GitIgnore)
    (this : @Binder GitFormat GitIgnore) u d :
  let prevI := default ∅ (prevIgnores this !! root) in
  d ∈ updateDirs (reload_root directory root snapshot (this, u)).2 ↔
    d ∈ updateDirs u
    ∨ ∃ p, d = strip_trailing_separator p
           ∧ prevI !! p ≠ ignores snapshot !! p
           ∧ (ignores snapshot !! p = Some directory ∨ prevI !! p = Some directory).
Proof. apply reload_root_dirs. Qed.

(** X13: after a reload over distinct roots the binder's record of every
    observed root is what was reported for it (a missing root status being
    recorded as not all staged, without formats), and the records of the
    other roots are as they were. *)
Theorem reload_records (sources : list ExplorerSource)
    (observed : list (string * @Snapshot GitFormat GitIgnore))
    (this : @Binder GitFormat GitIgnore) :
  NoDup observed.*1 →
  let after := (reload directory sources observed this).1 in
  (∀ root snapshot, (root, snapshot) ∈ observed → records after root snapshot)
  ∧ (∀ root, root ∉ observed.*1 →
       prevStatuses after !! root = prevStatuses this !! root
       ∧ prevIgnores after !! root = prevIgnores this !! root
       ∧ prevRootStatus after !! root = prevRootStatus this !! root).
Proof.
  intros Hnodup after. subst after. unfold reload.
  destruct observed as [|o observed]; [split; [set_solver|done]|].
  cbn [fst]. set (start := (this, {| updatePaths := ∅; updateDirs := ∅ |})).
  split.
  - intros root snapshot Hin. by apply foldl_reload_root_records.
  - intros root Hnot. by apply (foldl_reload_root_untouched root (o :: observed) start).
Qed.

(** X14: a reload that observes, for distinct roots, exactly what the
    previous reload observed leaves the binder as it is and asks every
    source to render, once each and in order, with no path and no directory:
    the render calls are made although nothing changed. *)
Theorem reload_same_report (sources : list ExplorerSource)
    (observed : list (string * @Snapshot GitFormat GitIgnore))
    (this : @Binder GitFormat GitIgnore) :
  NoDup observed.*1 →
  observed ≠ [] →
  let first := reload directory sources observed this in
  reload directory sources observed first.1
  = (first.1, (λ source, RenderPaths source ∅ ∅) <$> sources).
Proof.
  intros Hnodup Hne first. subst first.
  destruct observed as [|o observed]; [done|].
  unfold reload at 2 3. cbn [fst].
  set (st1 := (foldl _ _ (o :: observed)).1).
  assert (foldl (λ state r, reload_root directory r.1 r.2 state)
            (st1, {| updatePaths := ∅; updateDirs := ∅ |}) (o :: observed)
          = (st1, {| updatePaths := ∅; updateDirs := ∅ |})) as Hfix.
  { apply foldl_reload_root_recorded.
    intros root snapshot Hin. by apply foldl_reload_root_records. }
  unfold reload. rewrite Hfix. reflexivity.
Qed.

End Git_properties.

(** ** The further statements on the concrete explorer and repository *)

Section More_instances.
Import Example.

Example run_marker_in_branch_slot :
  doActionExp explorer (Seq [Leaf "even?" []; Leaf "wait" []; Leaf "open" []])
    [2; 3] noExpOptions (start [])
  = (Ok tt,
     {| source := {| selectedNodes := []; world := 0 |};
        trace := [EvCallback "open"
                    {| cb_nodes := [Some 3]; cb_args := []; cb_mode := "n" |}] |}).
Proof. vm_compute. reflexivity. Qed.

Example run_inherited_rule_name :
  doActionExp explorer (Seq [Leaf "toString" []; Leaf "open" []; Leaf "mark" []])
    [1] noExpOptions (start [])
  = (Throw (TypeError "rule.filter is not a function"), start []).
Proof. vm_compute. reflexivity. Qed.

Example run_inherited_rule_name_without_nodes :
  doActionExp explorer
    (Seq [Leaf "toString" []; Leaf "open" []; Leaf "mark" []; Leaf "delete" []])
    [] noExpOptions (start [5])
  = (Ok tt,
     {| source := {| selectedNodes := []; world := 2 |};
        trace := [EvRequestRenderNodes [5];
                  EvCallback "delete"
                    {| cb_nodes := [Some 5]; cb_args := []; cb_mode := "n" |};
                  EvLoad] |}).
Proof. vm_compute. reflexivity. Qed.

Lemma registeredAction_registeredActions_witness :
  registeredActions explorer !! "open" = Some open_local
  ∧ registeredAction explorer "mark" = Own <$> (registeredActions explorer !! "mark").
Proof.
  destruct (registeredAction_registeredActions explorer "open") as [Hlisted _].
  destruct (registeredAction_registeredActions explorer "mark") as [_ Hsame].
  split.
  - apply Hlisted. vm_compute. reflexivity.
  - apply Hsame.
    apply (bool_decide_unpack ("mark" ∉ Object_prototype_names)). vm_compute. exact I.
Defined.

Lemma doAction_unresolved_witness :
  doAction explorer "rename" (NodeArray [1; 2]) (Some ["x"]) (Some "v") (start [3])
  = (Ok tt, start [3]).
Proof.
  apply (doAction_unresolved explorer "rename");
    [vm_compute; reflexivity | vm_compute; reflexivity |].
  apply (bool_decide_unpack ("rename" ∉ Object_prototype_names)). vm_compute. exact I.
Defined.

Lemma doAction_prototype_name_witness :
  ∃ msg,
    doAction explorer "toString" (NodeArray [1; 2]) (Some ["x"]) (Some "v") (start [3])
    = (Throw (TypeError msg), start [3]).
Proof.
  apply (doAction_prototype_name explorer "toString");
    [|vm_compute; reflexivity].
  apply (bool_decide_unpack ("toString" ∈ Object_prototype_names)). vm_compute. exact I.
Defined.

Lemma doAction_visual_witness :
  let out := doAction explorer "broken" (NodeArray [4; 4]) None (Some "v") (start [4; 5]) in
  out.1 = Throw (Thrown "EACCES")
  ∧ selectedNodes (source out.2) = [4; 5]
  ∧ trace out.2 =
      [EvCallback "broken"
         {| cb_nodes := [Some 4; Some 4]; cb_args := []; cb_mode := "v" |};
       EvLoad].
Proof.
  apply (doAction_visual explorer "broken" (NodeArray [4; 4]) None (Some "v") broken
           (start [4; 5])); [vm_compute; reflexivity | reflexivity].
Defined.

Lemma doAction_replace_single_empty_witness :
  let out := doAction explorer "open" (NodeArray []) None None (start [7]) in
  out.1 = Ok tt
  ∧ trace out.2 =
      [EvCallback "open" {| cb_nodes := [None]; cb_args := []; cb_mode := "n" |}].
Proof.
  apply (doAction_replace_single_empty explorer "open" (NodeArray []) None None
           open_local (start [7]));
    [vm_compute; reflexivity | left; reflexivity | reflexivity].
Defined.

Lemma doActionExp_Seq_cons_witness :
  doActionExp explorer (Seq [Leaf "mark" []; Leaf "wait" []; Leaf "delete" []])
    [1] noExpOptions (start [2])
  = (doActionExp explorer (Leaf "mark" []) [1] (subOptions_of noExpOptions);;
     doActionExp explorer (Seq [Leaf "wait" []; Leaf "delete" []]) [1] noExpOptions)
      (start [2]).
Proof.
  apply (doActionExp_Seq_cons explorer (Leaf "mark" [])).
  split; [discriminate | vm_compute; reflexivity].
Defined.

Lemma doActionExp_plain_sequence_witness :
  doActionExp explorer (Seq [Leaf "mark" ["a"]; Leaf "broken" []; Leaf "open" []])
    [1] noExpOptions (start [2])
  = (doAction explorer "mark" (NodeArray [1]) (Some ["a"]) (Some "n");;
     doAction explorer "broken" (NodeArray [1]) (Some []) (Some "n");;
     doAction explorer "open" (NodeArray [1]) (Some []) (Some "n");;
     ret tt) (start [2]).
Proof.
  apply (doActionExp_plain_sequence explorer [("mark", ["a"]); ("broken", []); ("open", [])]).
  repeat constructor; try discriminate; vm_compute; reflexivity.
Defined.

Lemma doActionExp_Seq_router_witness :
  doActionExp explorer
    (Seq [Leaf "even?" []; Leaf "open" []; Leaf "mark" []; Leaf "delete" []])
    [1; 2; 3] noExpOptions (start [])
  = (doActionExp explorer (Leaf "open" []) [2] (subOptions_of noExpOptions);;
     doActionExp explorer (Leaf "mark" []) [1; 3] (subOptions_of noExpOptions);;
     doActionExp explorer (Seq [Leaf "delete" []]) [1; 2; 3] noExpOptions)
      (start []).
Proof.
  assert ("even?" ≠ waitAction_name explorer) as Hname by discriminate.
  assert (conditionActionRules explorer !! "even?"
          = Some {| rule_filter := λ _ node _, Nat.even node |}) as Hrule
    by (vm_compute; reflexivity).
  exact (doActionExp_Seq_router explorer "even?" [] _ (Leaf "open" []) (Leaf "mark" [])
           [Leaf "delete" []] [1; 2; 3] noExpOptions (start []) Hname Hrule).
Defined.

Lemma doActionExp_Seq_marker_witness :
  let acquired : @Machine nat nat :=
    {| source := {| selectedNodes := [2]; world := 1 |}; trace := [EvAcquire] |} in
  let out :=
    doActionExp explorer (Seq [Leaf "wait" []; Leaf "broken" []]) [1]
      (subOptions_of noExpOptions) acquired in
  doActionExp explorer (Seq [Leaf "wait" []; Leaf "wait" []; Leaf "broken" []]) [1]
    noExpOptions (start [2])
  = (out.1,
     {| source := on_world S (source out.2); trace := trace out.2 ++ [EvRelease] |}).
Proof.
  apply (doActionExp_Seq_marker explorer [] [Leaf "wait" []; Leaf "broken" []] [1]
           noExpOptions (start [2])).
  reflexivity.
Defined.

End More_instances.

Section Git_instances.
Import GitBinder GitExample.

Example reload_first_report :
  (reload true [1; 2] [("/repo", report)] unbound).2
  = [RenderPaths 1 {[ "/repo/a.txt"; "/repo/b.txt"; "/repo/x.log"; "/repo" ]}
       {[ "/repo/build" ]};
     RenderPaths 2 {[ "/repo/a.txt"; "/repo/b.txt"; "/repo/x.log"; "/repo" ]}
       {[ "/repo/build" ]}].
Proof. vm_compute. reflexivity. Qed.

Example reload_later_report :
  (reload true [1] [("/repo", later_report)]
     (reload true [1] [("/repo", report)] unbound).1).2
  = [RenderPaths 1 {[ "/repo/b.txt"; "/repo/c.txt"; "/repo/x.log" ]} ∅].
Proof. vm_compute. reflexivity. Qed.

Example rootStatusEqual_join :
  rootStatusEqual {| allStaged := true; formats := [] |}
    {| allStaged := true; formats := [""] |} = true
  ∧ rootStatusEqual {| allStaged := true; formats := ["a,b"] |}
      {| allStaged := true; formats := ["a"; "b"] |} = true.
Proof. split; reflexivity. Qed.

Lemma rootStatusEqual_true_iff_witness :
  rootStatusEqual {| allStaged := false; formats := ["M"; "A"] |}
    {| allStaged := false; formats := ["M"; "A"] |} = true
  ↔ {| allStaged := false; formats := ["M"; "A"] |}
    = {| allStaged := false; formats := ["M"; "A"] |}.
Proof.
  apply rootStatusEqual_true_iff;
    repeat constructor; simpl; try discriminate; reflexivity.
Defined.

Lemma reload_records_witness :
  let after := (reload true [1; 2] [("/repo", report)] unbound).1 in
  (∀ root snapshot, (root, snapshot) ∈ [("/repo", report)] → records after root snapshot)
  ∧ (∀ root, root ∉ [("/repo", report)].*1 →
       prevStatuses after !! root = prevStatuses unbound !! root
       ∧ prevIgnores after !! root = prevIgnores unbound !! root
       ∧ prevRootStatus after !! root = prevRootStatus unbound !! root).
Proof.
  apply (reload_records true [1; 2] [("/repo", report)] unbound).
  simpl. apply NoDup_singleton.
Defined.

Lemma reload_same_report_witness :
  let first := reload true [1; 2] [("/repo", report)] unbound in
  reload true [1; 2] [("/repo", report)] first.1
  = (first.1, [RenderPaths 1 ∅ ∅; RenderPaths 2 ∅ ∅]).
Proof.
  apply (reload_same_report true [1; 2] [("/repo", report)] unbound).
  - simpl. apply NoDup_singleton.
  - discriminate.
Defined.

End Git_instances.

Section Marker_instances.
Import Example.

Lemma doActionExp_without_marker_witness :
  ∃ t, trace (doActionExp explorer
                (Seq [Leaf "mark" []; Seq [Leaf "wait" []; Leaf "open" []]])
                [1] noExpOptions (start [])).2
       = trace (start []) ++ t
       ∧ acquisitions t = 0 ∧ releases t = 0.
Proof.
  apply (doActionExp_without_marker explorer
           [Leaf "mark" []; Seq [Leaf "wait" []; Leaf "open" []]]).
  intros args Hin.
  repeat (apply elem_of_cons in Hin as [Hin|Hin]; [discriminate|]).
  by apply elem_of_nil in Hin.
Defined.

End Marker_instances.
